(** * Cube Rush: the simulation core of src/App.tsx

    A shallow embedding of the game loop of [App.tsx]: the [Game] component's
    frame callback (obstacle movement, scoring, wave spawning, collision
    detection, speed-up), its input handlers and reset effect, and the [App]
    component's phase and high-score handling.

    Conventions of the embedding.
    - A JavaScript number that carries a distance, a speed or a time is a
      rational [Q] with exact arithmetic; counters and the score, which only
      ever hold integers, are [Z].  A lane is the integer -1, 0 or 1.
    - [Math.sqrt(d) < b] is decided on the squares, [d < b * b], which is the
      same test for [0 <= d] and [0 < b].
    - [Math.random()] is an input of the frame callback: a draw in [[0, 1)].
      [Array.prototype.sort] with the random comparator returns some
      rearrangement of the array; which one is an input as well.
    - React state is a record.  A callback reads the snapshot of the last
      render and queues its updates; the record after the callback is the
      state once the queued updaters have run, in the order they were
      queued. *)

From Stdlib Require Import ZArith QArith Qabs Lqa Lia Bool String List Permutation.
Import ListNotations.

Local Open Scope Q_scope.

(** ** Numbers *)

Definition Qltb (a b : Q) : bool := negb (Qle_bool b a).

Notation "a <? b" := (Qltb a b) (at level 70, no associativity) : Q_scope.

(** [Math.sqrt(d) < b], for [0 <= d] and [0 < b]. *)
Definition sqrt_ltb (d b : Q) : bool := d <? b * b.

(** [Math.pow(x, 2)]. *)
Definition pow2 (x : Q) : Q := x * x.

(** ** Types and constants (App.tsx lines 6-21) *)

Inductive GameState := menu | playing | gameover.

Definition GameState_eqb (a b : GameState) : bool :=
  match a, b with
  | menu, menu | playing, playing | gameover, gameover => true
  | _, _ => false
  end.

(** [type Lane = -1 | 0 | 1]: a lane is an integer ([Z]) and [isLane] is
    the range of the type. *)
Definition isLane (l : Z) : Prop := (-1 <= l <= 1)%Z.

Record Obstacle := mkObstacle {
  obs_id : Z;
  obs_z : Q;
  obs_lane : Z;
  obs_passed : bool
}.

Definition LANE_WIDTH : Q := 2.5.
Definition INITIAL_SPEED : Q := 15.
Definition SPEED_INCREMENT : Q := 0.5.
Definition OBSTACLE_SPAWN_DISTANCE : Q := 80.
Definition OBSTACLE_DESPAWN_DISTANCE : Q := -10.

(** ** State of the two components

    [App] holds [gameState], [score], [highScore], [showShareCard] and the ref
    [finalScoreRef]; [Game] holds [lane], [obstacles], [speed] and the refs
    [obstacleIdRef], [lastSpawnZ] and [playerRef] (its [x]; its [z] is never
    written after the reset).  [localStorage] is the entry stored under the
    key cubeRushHighScore, as the integer its text denotes; [shareTimers]
    counts the pending [setTimeout] callbacks. *)

Record State := mkState {
  gameState : GameState;
  score : Z;
  highScore : Z;
  showShareCard : bool;
  finalScoreRef : Z;
  localStorage : option Z;
  shareTimers : nat;
  lane : Z;
  obstacles : list Obstacle;
  speed : Q;
  obstacleIdRef : Z;
  lastSpawnZ : Q;
  playerRef_x : Q
}.

Definition set_gameState (v : GameState) (s : State) : State :=
  mkState v (score s) (highScore s) (showShareCard s) (finalScoreRef s)
    (localStorage s) (shareTimers s) (lane s) (obstacles s) (speed s)
    (obstacleIdRef s) (lastSpawnZ s) (playerRef_x s).

Definition set_score (v : Z) (s : State) : State :=
  mkState (gameState s) v (highScore s) (showShareCard s) (finalScoreRef s)
    (localStorage s) (shareTimers s) (lane s) (obstacles s) (speed s)
    (obstacleIdRef s) (lastSpawnZ s) (playerRef_x s).

Definition set_highScore (v : Z) (s : State) : State :=
  mkState (gameState s) (score s) v (showShareCard s) (finalScoreRef s)
    (localStorage s) (shareTimers s) (lane s) (obstacles s) (speed s)
    (obstacleIdRef s) (lastSpawnZ s) (playerRef_x s).

Definition set_showShareCard (v : bool) (s : State) : State :=
  mkState (gameState s) (score s) (highScore s) v (finalScoreRef s)
    (localStorage s) (shareTimers s) (lane s) (obstacles s) (speed s)
    (obstacleIdRef s) (lastSpawnZ s) (playerRef_x s).

Definition set_finalScoreRef (v : Z) (s : State) : State :=
  mkState (gameState s) (score s) (highScore s) (showShareCard s) v
    (localStorage s) (shareTimers s) (lane s) (obstacles s) (speed s)
    (obstacleIdRef s) (lastSpawnZ s) (playerRef_x s).

Definition set_localStorage (v : option Z) (s : State) : State :=
  mkState (gameState s) (score s) (highScore s) (showShareCard s)
    (finalScoreRef s) v (shareTimers s) (lane s) (obstacles s) (speed s)
    (obstacleIdRef s) (lastSpawnZ s) (playerRef_x s).

Definition set_shareTimers (v : nat) (s : State) : State :=
  mkState (gameState s) (score s) (highScore s) (showShareCard s)
    (finalScoreRef s) (localStorage s) v (lane s) (obstacles s) (speed s)
    (obstacleIdRef s) (lastSpawnZ s) (playerRef_x s).

Definition set_lane (v : Z) (s : State) : State :=
  mkState (gameState s) (score s) (highScore s) (showShareCard s)
    (finalScoreRef s) (localStorage s) (shareTimers s) v (obstacles s)
    (speed s) (obstacleIdRef s) (lastSpawnZ s) (playerRef_x s).

Definition set_obstacles (v : list Obstacle) (s : State) : State :=
  mkState (gameState s) (score s) (highScore s) (showShareCard s)
    (finalScoreRef s) (localStorage s) (shareTimers s) (lane s) v (speed s)
    (obstacleIdRef s) (lastSpawnZ s) (playerRef_x s).

Definition set_speed (v : Q) (s : State) : State :=
  mkState (gameState s) (score s) (highScore s) (showShareCard s)
    (finalScoreRef s) (localStorage s) (shareTimers s) (lane s) (obstacles s)
    v (obstacleIdRef s) (lastSpawnZ s) (playerRef_x s).

Definition set_obstacleIdRef (v : Z) (s : State) : State :=
  mkState (gameState s) (score s) (highScore s) (showShareCard s)
    (finalScoreRef s) (localStorage s) (shareTimers s) (lane s) (obstacles s)
    (speed s) v (lastSpawnZ s) (playerRef_x s).

Definition set_lastSpawnZ (v : Q) (s : State) : State :=
  mkState (gameState s) (score s) (highScore s) (showShareCard s)
    (finalScoreRef s) (localStorage s) (shareTimers s) (lane s) (obstacles s)
    (speed s) (obstacleIdRef s) v (playerRef_x s).

Definition set_playerRef_x (v : Q) (s : State) : State :=
  mkState (gameState s) (score s) (highScore s) (showShareCard s)
    (finalScoreRef s) (localStorage s) (shareTimers s) (lane s) (obstacles s)
    (speed s) (obstacleIdRef s) (lastSpawnZ s) v.

(** The first render: [useState] initialisers of [App] (lines 435-442, the
    high score read from storage, 0 when there is no entry) and of [Game]
    (lines 153-158). *)
Definition initialState (saved : option Z) : State :=
  {| gameState := menu;
     score := 0;
     highScore := match saved with Some n => n | None => 0%Z end;
     showShareCard := false;
     finalScoreRef := 0;
     localStorage := saved;
     shareTimers := 0;
     lane := 0;
     obstacles := [];
     speed := INITIAL_SPEED;
     obstacleIdRef := 0;
     lastSpawnZ := OBSTACLE_SPAWN_DISTANCE;
     playerRef_x := 0 |}.

(** ** Reset effect (lines 162-172) and [startGame] (lines 453-456) *)

Definition resetEffect (s : State) : State :=
  match gameState s with
  | playing =>
      set_playerRef_x 0
        (set_obstacleIdRef 0
          (set_lastSpawnZ OBSTACLE_SPAWN_DISTANCE
            (set_score 0
              (set_speed INITIAL_SPEED
                (set_obstacles []
                  (set_lane 0 s))))))
  | _ => s
  end.

(** The effect depends on [gameState]: it runs after a render in which
    [gameState] differs from the previous render's. *)
Definition commit (before after : State) : State :=
  if GameState_eqb (gameState before) (gameState after) then after
  else resetEffect after.

Definition startGame (s : State) : State :=
  commit s (set_showShareCard false (set_gameState playing s)).

(** ** Input handlers (lines 175-219) *)

Definition moveLeft (prev : Z) : Z := Z.max (-1) (prev - 1).
Definition moveRight (prev : Z) : Z := Z.min 1 (prev + 1).

Definition isLeftKey (key : string) : bool :=
  (String.eqb key "ArrowLeft" || String.eqb key "a" || String.eqb key "A")%bool.

Definition isRightKey (key : string) : bool :=
  (String.eqb key "ArrowRight" || String.eqb key "d" || String.eqb key "D")%bool.

Definition handleKeyDown (key : string) (s : State) : State :=
  match gameState s with
  | playing =>
      if isLeftKey key then set_lane (moveLeft (lane s)) s
      else if isRightKey key then set_lane (moveRight (lane s)) s
      else s
  | _ => s
  end.

Definition handleTouchEnd (touchStartX touchEndX : Q) (s : State) : State :=
  match gameState s with
  | playing =>
      let diff := touchEndX - touchStartX in
      if 30 <? Qabs diff then
        if 0 <? diff then set_lane (moveRight (lane s)) s
        else set_lane (moveLeft (lane s)) s
      else s
  | _ => s
  end.

(** ** Random inputs of one frame (lines 251-265) *)

(** The orders in which [sort] can leave a three-element array: [P120] puts
    the elements of indices 1, 2, 0 first, second and third. *)
Inductive Arrangement := P012 | P021 | P102 | P120 | P201 | P210.

Definition arrange {A : Type} (p : Arrangement) (l : list A) : list A :=
  match l with
  | [a; b; c] =>
      match p with
      | P012 => [a; b; c]
      | P021 => [a; c; b]
      | P102 => [b; a; c]
      | P120 => [b; c; a]
      | P201 => [c; a; b]
      | P210 => [c; b; a]
      end
  | _ => l
  end.

(** [countDraw] is the [Math.random()] of line 251, [sortDraw] the outcome of
    the [sort] of line 253, [gapDraw] the [Math.random()] of line 265. *)
Record Draws := mkDraws {
  countDraw : Q;
  sortDraw : Arrangement;
  gapDraw : Q
}.

(** The range of [Math.random()]. *)
Definition isDraw (r : Q) : Prop := 0 <= r /\ r < 1.

(** ** The frame callback of [Game] (lines 222-289) *)

(** *** Movement and scoring: the first [setObstacles] updater (229-244) *)

Definition moveObstacle (speed delta : Q) (obs : Obstacle) : Obstacle :=
  {| obs_id := obs_id obs;
     obs_z := obs_z obs - speed * delta;
     obs_lane := obs_lane obs;
     obs_passed := obs_passed obs |}.

Definition advance (speed delta : Q) (prev : list Obstacle) : list Obstacle :=
  filter (fun obs => OBSTACLE_DESPAWN_DISTANCE <? obs_z obs)
         (map (moveObstacle speed delta) prev).

Definition scorable (obs : Obstacle) : bool :=
  (negb (obs_passed obs) && (obs_z obs <? -2))%bool.

Definition markPassed (obs : Obstacle) : Obstacle :=
  {| obs_id := obs_id obs;
     obs_z := obs_z obs;
     obs_lane := obs_lane obs;
     obs_passed := true |}.

(** [updated.forEach]: marks the obstacle in place and queues one
    [setScore(s => s + 10)]; the score is threaded through. *)
Fixpoint scorePass (updated : list Obstacle) (s : Z) : list Obstacle * Z :=
  match updated with
  | [] => ([], s)
  | obs :: rest =>
      if scorable obs then
        let (rest', s') := scorePass rest (s + 10)%Z in
        (markPassed obs :: rest', s')
      else
        let (rest', s') := scorePass rest s in
        (obs :: rest', s')
  end.

Definition moveAndScore (speed delta : Q) (prev : list Obstacle) (s : Z)
  : list Obstacle * Z :=
  scorePass (advance speed delta prev) s.

(** *** Spawning (246-266) *)

Definition numObstacles (rnd : Draws) : nat :=
  if 0.7 <? countDraw rnd then 2%nat else 1%nat.

Definition lanes : list Z := [-1; 0; 1]%Z.

Definition shuffled (rnd : Draws) : list Z := arrange (sortDraw rnd) lanes.

Definition blockedLanes (rnd : Draws) : list Z :=
  firstn (numObstacles rnd) (shuffled rnd).

(** One queued updater [prev => [...prev, {id: obstacleIdRef.current++, ...}]];
    the pair is the obstacle list and [obstacleIdRef.current]. *)
Definition spawnObstacle (acc : list Obstacle * Z) (blockedLane : Z)
  : list Obstacle * Z :=
  let (prev, nextId) := acc in
  (prev ++ [ {| obs_id := nextId;
                obs_z := OBSTACLE_SPAWN_DISTANCE;
                obs_lane := blockedLane;
                obs_passed := false |} ],
   (nextId + 1)%Z).

Definition spawnWave (blocked : list Z) (acc : list Obstacle * Z)
  : list Obstacle * Z :=
  fold_left spawnObstacle blocked acc.

(** *** Collision detection (268-280) and [handleGameOver] (444-451) *)

Definition collides (playerX : Q) (obs : Obstacle) : bool :=
  let obsX := inject_Z (obs_lane obs) * LANE_WIDTH in
  let distance2 := pow2 (playerX - obsX) + pow2 (obs_z obs) in
  (sqrt_ltb distance2 1.8 && (-1.5 <? obs_z obs) && (obs_z obs <? 1.5))%bool.

(** [handleGameOver] closes over the [score] and [highScore] of the render it
    was created in, [snap]; its writes go to [acc]. *)
Definition handleGameOver (snap acc : State) : State :=
  let acc := set_finalScoreRef (score snap) acc in
  let acc :=
    if (highScore snap <? score snap)%Z
    then set_localStorage (Some (score snap)) (set_highScore (score snap) acc)
    else acc in
  set_shareTimers (S (shareTimers acc)) acc.

(** [obstacles.forEach] over the obstacles of the render, with no early
    exit: every colliding obstacle runs the body. *)
Definition collisionPass (snap acc : State) : State :=
  fold_left
    (fun acc obs =>
       if collides (playerRef_x acc) obs
       then handleGameOver snap (set_gameState gameover acc)
       else acc)
    (obstacles snap) acc.

(** *** The callback *)

Definition frameBody (delta : Q) (rnd : Draws) (snap : State) : State :=
  let s := set_playerRef_x (inject_Z (lane snap) * LANE_WIDTH) snap in
  let (updated, score') :=
    moveAndScore (speed snap) delta (obstacles s) (score s) in
  let s := set_score score' (set_obstacles updated s) in
  let s :=
    if 0 <? lastSpawnZ s then
      set_lastSpawnZ (lastSpawnZ s - speed snap * delta) s
    else
      let (obs, nextId) :=
        spawnWave (blockedLanes rnd) (obstacles s, obstacleIdRef s) in
      set_lastSpawnZ (8 + gapDraw rnd * 4)
        (set_obstacleIdRef nextId (set_obstacles obs s)) in
  let s := collisionPass snap s in
  set_speed (speed s + SPEED_INCREMENT * delta * 0.1) s.

Definition useFrame (delta : Q) (rnd : Draws) (snap : State) : State :=
  match gameState snap with
  | playing => commit snap (frameBody delta rnd snap)
  | _ => snap
  end.

(** ** The share card (450, 572-580) *)

Definition shareTimerFires (s : State) : State :=
  match shareTimers s with
  | O => s
  | S n => set_showShareCard true (set_shareTimers n s)
  end.

Definition closeShareCard (s : State) : State :=
  commit s (set_gameState menu (set_showShareCard false s)).

(** ** Events

    What can happen to the page: a frame, a key press, the end of a touch
    (with the X recorded at its start), a click on PLAY (the button is
    rendered in [menu] only), a pending share timer firing, and a click on
    Close (the share card is rendered when [showShareCard] is set). *)

Inductive Event :=
| Frame (delta : Q) (rnd : Draws)
| KeyDown (key : string)
| TouchEnd (touchStartX touchEndX : Q)
| Play
| ShareTimer
| Close.

Definition step (e : Event) (s : State) : State :=
  match e with
  | Frame delta rnd => useFrame delta rnd s
  | KeyDown key => handleKeyDown key s
  | TouchEnd x0 x1 => handleTouchEnd x0 x1 s
  | Play => match gameState s with menu => startGame s | _ => s end
  | ShareTimer => shareTimerFires s
  | Close => if showShareCard s then closeShareCard s else s
  end.

Definition run (es : list Event) (s : State) : State :=
  fold_left (fun s e => step e s) es s.

Inductive reachable (saved : option Z) : State -> Prop :=
| reach_init : reachable saved (initialState saved)
| reach_step e s : reachable saved s -> reachable saved (step e s).

(** ** Several frames of the movement-and-scoring updater

    [updates steps reg s] runs the updater once per element of [steps], each
    a pair of the frame's speed and delta. *)

Fixpoint updates (steps : list (Q * Q)) (reg : list Obstacle) (s : Z)
  : list Obstacle * Z :=
  match steps with
  | [] => (reg, s)
  | (speed, delta) :: rest =>
      let (reg', s') := moveAndScore speed delta reg s in
      updates rest reg' s'
  end.

(** The part of the score that is due to [obs], an obstacle of the registry
    [l1 ++ obs :: l2]: the score with it less the score without it. *)
Definition contribution (steps : list (Q * Q)) (l1 : list Obstacle)
  (obs : Obstacle) (l2 : list Obstacle) (s : Z) : Z :=
  (snd (updates steps (l1 ++ obs :: l2) s) - snd (updates steps (l1 ++ l2) s))%Z.

(** ** Closed forms used in the proofs *)

(** The obstacles the queued updaters of one wave append, in order. *)
Fixpoint wave (blocked : list Z) (nextId : Z) : list Obstacle :=
  match blocked with
  | [] => []
  | blockedLane :: rest =>
      {| obs_id := nextId;
         obs_z := OBSTACLE_SPAWN_DISTANCE;
         obs_lane := blockedLane;
         obs_passed := false |} :: wave rest (nextId + 1)
  end.

(** The scoring pass in closed form. *)
Definition marked (l : list Obstacle) : list Obstacle :=
  map (fun obs => if scorable obs then markPassed obs else obs) l.

Definition credits (l : list Obstacle) : Z :=
  (10 * Z.of_nat (length (filter scorable l)))%Z.

Definition unpassed (l : list Obstacle) : nat :=
  length (filter (fun obs => negb (obs_passed obs)) l).

(** Registry after, and points earned over, several updater runs. *)
Fixpoint regAfter (steps : list (Q * Q)) (reg : list Obstacle) : list Obstacle :=
  match steps with
  | [] => reg
  | (speed, delta) :: rest => regAfter rest (marked (advance speed delta reg))
  end.

Fixpoint earned (steps : list (Q * Q)) (reg : list Obstacle) : Z :=
  match steps with
  | [] => 0%Z
  | (speed, delta) :: rest =>
      (credits (advance speed delta reg)
       + earned rest (marked (advance speed delta reg)))%Z
  end.

(** Whether the scoring pass ever sees an obstacle that starts at [z] below
    the threshold -2: after some frame it is at a position under -2, and it
    has stayed above the despawn distance up to and including that frame. *)
Fixpoint crosses (steps : list (Q * Q)) (z : Q) : bool :=
  match steps with
  | [] => false
  | (speed, delta) :: rest =>
      let z' := z - speed * delta in
      ((OBSTACLE_DESPAWN_DISTANCE <? z') && ((z' <? -2) || crosses rest z'))%bool
  end.

(** Number of iterations of the collision loop that run its body. *)
Definition hits (playerX : Q) (l : list Obstacle) : nat :=
  length (filter (collides playerX) l).

(** The state after the collision loop has run its body [S n] times. *)
Definition afterHits (snap acc : State) (n : nat) : State :=
  {| gameState := gameover;
     score := score acc;
     highScore :=
       if (highScore snap <? score snap)%Z then score snap else highScore acc;
     showShareCard := showShareCard acc;
     finalScoreRef := score snap;
     localStorage :=
       if (highScore snap <? score snap)%Z then Some (score snap)
       else localStorage acc;
     shareTimers := shareTimers acc + S n;
     lane := lane acc;
     obstacles := obstacles acc;
     speed := speed acc;
     obstacleIdRef := obstacleIdRef acc;
     lastSpawnZ := lastSpawnZ acc;
     playerRef_x := playerRef_x acc |}.

(** ** Sample states and draws *)

(** A state in which the run has started and the registry holds [reg]. *)
Definition playingWith (reg : list Obstacle) : State :=
  set_obstacles reg (startGame (initialState None)).

Definition someDraws : Draws :=
  {| countDraw := 0.5; sortDraw := P012; gapDraw := 0.5 |}.

(** A state back in the menu after a run that ended with score 450. *)
Definition afterRun450 : State :=
  {| gameState := menu;
     score := 450;
     highScore := 450;
     showShareCard := false;
     finalScoreRef := 450;
     localStorage := Some 450%Z;
     shareTimers := 0;
     lane := 1;
     obstacles := [mkObstacle 61 (-0.9) 1 false; mkObstacle 62 9.4 0 false];
     speed := 17.5;
     obstacleIdRef := 63;
     lastSpawnZ := 2.1;
     playerRef_x := 2.5 |}.

(** A run about to end: an obstacle sits on the player, the score is [s]
    and the stored high score is [h]. *)
Definition aboutToEnd (s h : Z) : State :=
  set_localStorage (Some h)
    (set_highScore h (set_score s (playingWith [mkObstacle 0 0 0 false]))).

(** ** Runs of events *)

(** What the browser can deliver: the delta of a frame is an elapsed time,
    not negative, and its draws are in the range of [Math.random()]. *)
Definition wellTimed (e : Event) : Prop :=
  match e with
  | Frame delta rnd =>
      0 <= delta /\ isDraw (countDraw rnd) /\ isDraw (gapDraw rnd)
  | _ => True
  end.

(** The states of the page under well-timed events. *)
Inductive played (saved : option Z) : State -> Prop :=
| played_init : played saved (initialState saved)
| played_step e s :
    played saved s -> wellTimed e -> played saved (step e s).



(** Events of the game itself: frames, keys and touches. *)
Definition isGameEvent (e : Event) : Prop :=
  match e with
  | Frame _ _ | KeyDown _ | TouchEnd _ _ => True
  | _ => False
  end.

(** ** Obstacle colours (lines 291 and 310) *)

Definition obstacleColors : list string :=
  ["#ff0055"; "#ffff00"; "#00ff88"]%string.

(** [obstacleColors[Math.abs(obs.lane)]]; [None] is [undefined]. *)
Definition obstacleColor (obs : Obstacle) : option string :=
  nth_error obstacleColors (Z.abs_nat (obs_lane obs)).

(** ** Relations between states and between obstacles *)

(** The fields no event but a playing frame or a start touches. *)
Definition sameWorld (a b : State) : Prop :=
  score a = score b /\ highScore a = highScore b /\
  localStorage a = localStorage b /\ obstacles a = obstacles b /\
  speed a = speed b /\ obstacleIdRef a = obstacleIdRef b /\
  lastSpawnZ a = lastSpawnZ b.

(** The state of the run: everything [Game] holds, the phase and the score. *)
Definition sameRun (a b : State) : Prop :=
  gameState a = gameState b /\ score a = score b /\ lane a = lane b /\
  obstacles a = obstacles b /\ speed a = speed b /\
  obstacleIdRef a = obstacleIdRef b /\ lastSpawnZ a = lastSpawnZ b /\
  playerRef_x a = playerRef_x b.

(** Two obstacles are side by side in different lanes, or at least 8 apart. *)
Definition apart (a b : Obstacle) : Prop :=
  (obs_z a == obs_z b /\ obs_lane a <> obs_lane b) \/
  8 <= obs_z a - obs_z b \/ 8 <= obs_z b - obs_z a.

Fixpoint spaced (l : list Obstacle) : Prop :=
  match l with
  | [] => True
  | obs :: rest => Forall (apart obs) rest /\ spaced rest
  end.

(** ** Invariants of the registry and the score *)

(** Every obstacle is in a lane, above the despawn distance, and passed
    when it is below -2. *)
Definition shapeOk (s : State) : Prop :=
  Forall (fun obs => isLane (obs_lane obs) /\ -10 < obs_z obs /\
                     (obs_z obs < -2 -> obs_passed obs = true))
         (obstacles s).

(** Ids are distinct and below the counter. *)
Definition idsOk (s : State) : Prop :=
  (0 <= obstacleIdRef s)%Z /\
  Forall (fun obs => (0 <= obs_id obs < obstacleIdRef s)%Z) (obstacles s) /\
  NoDup (map obs_id (obstacles s)).

(** The score is a multiple of 10, and with 10 for each unpassed obstacle of
    the registry it stays within 10 per obstacle spawned. *)
Definition scoreOk (s : State) : Prop :=
  (0 <= score s)%Z /\
  (exists k, score s = 10 * k)%Z /\
  (score s + 10 * Z.of_nat (unpassed (obstacles s))
   <= 10 * obstacleIdRef s)%Z.

(** The high score of the state is the one a reload would read. *)
Definition storageOk (s : State) : Prop :=
  highScore s = match localStorage s with Some n => n | None => 0%Z end.

(** Under well-timed events: the speed is at least the initial one, the
    cursor at most 80, every obstacle is at most at 80 and at most at 72 plus
    the cursor, and the obstacles are spaced. *)
Definition timedOk (s : State) : Prop :=
  15 <= speed s /\
  lastSpawnZ s <= 80 /\
  Forall (fun obs => obs_z obs <= 80 /\ obs_z obs <= 72 + lastSpawnZ s)
         (obstacles s) /\
  spaced (obstacles s).

(** At most one share timer or the share card, and only after a game. *)
Definition phaseOk (s : State) : Prop :=
  (shareTimers s + (if showShareCard s then 1 else 0)
   = match gameState s with gameover => 1 | _ => 0 end)%nat.

(** ** A sample run *)

Definition twoLaneDraws : Draws :=
  {| countDraw := 0.9; sortDraw := P201; gapDraw := 0.25 |}.

Definition sampleEvents : list Event :=
  [Play; Frame (16 # 3) someDraws; Frame 0.1 twoLaneDraws;
   Frame 0.5 someDraws; KeyDown "ArrowLeft"; Frame 0.2 someDraws;
   Frame 4 someDraws; Frame 1 someDraws].

Definition sampleState : State := run sampleEvents (initialState None).

(** Every obstacle has a lane that is free at its distance. *)
Definition openOk (s : State) : Prop :=
  forall obs, In obs (obstacles s) ->
    exists l, isLane l /\
      forall obs', In obs' (obstacles s) ->
        obs_z obs' == obs_z obs -> obs_lane obs' <> l.


(** The key presses that take the player from lane [from] to lane [to]. *)
Definition keysTo (from to : Z) : list Event :=
  if (to <? from)%Z
  then repeat (KeyDown "ArrowLeft") (Z.to_nat (from - to))
  else repeat (KeyDown "ArrowRight") (Z.to_nat (to - from)).

(** * Properties *)

(** ** Comparisons *)

Lemma Qltb_lt (a b : Q) : (a <? b) = true <-> a < b.
Proof.
  unfold Qltb. rewrite negb_true_iff.
  split; intro H.
  - apply Qnot_le_lt. intro Hle. apply Qle_bool_iff in Hle. congruence.
  - destruct (Qle_bool b a) eqn:E; [|reflexivity].
    apply Qle_bool_iff in E. exfalso. apply (Qlt_not_le a b); assumption.
Qed.

Lemma Qltb_ge (a b : Q) : (a <? b) = false <-> b <= a.
Proof.
  unfold Qltb. rewrite negb_false_iff. apply Qle_bool_iff.
Qed.

Lemma Qltb_reflect (a b : Q) : reflect (a < b) (a <? b).
Proof.
  destruct (a <? b) eqn:E; constructor.
  - now apply Qltb_lt.
  - intro H. apply Qltb_lt in H. congruence.
Qed.

(** ** Collision test *)

Lemma lane_gap (a b : Z) :
  a <> b -> 1 <= pow2 (inject_Z a - inject_Z b).
Proof.
  intro Hab. unfold pow2.
  assert (H : inject_Z a - inject_Z b == inject_Z (a - b)).
  { unfold Zminus. rewrite inject_Z_plus, inject_Z_opp. reflexivity. }
  rewrite H. rewrite <- inject_Z_mult.
  change 1 with (inject_Z 1). rewrite <- Zle_Qle. nia.
Qed.

Lemma collides_iff (l : Z) (obs : Obstacle) :
  collides (inject_Z l * LANE_WIDTH) obs = true <->
  obs_lane obs = l /\ -1.5 < obs_z obs /\ obs_z obs < 1.5.
Proof.
  unfold collides, sqrt_ltb.
  rewrite !andb_true_iff, !Qltb_lt.
  split.
  - intros [[Hd Hlo] Hhi]. split; [|split; assumption].
    destruct (Z.eq_dec (obs_lane obs) l) as [|Hne]; [assumption|exfalso].
    assert (Hg := lane_gap l (obs_lane obs) (not_eq_sym Hne)).
    unfold pow2, LANE_WIDTH in *.
    set (d := inject_Z l - inject_Z (obs_lane obs)) in *.
    assert (Hz : 0 <= obs_z obs * obs_z obs) by nra.
    assert (Hd' : (d * 2.5) * (d * 2.5) + obs_z obs * obs_z obs < 1.8 * 1.8).
    { revert Hd. subst d. intro Hd.
      setoid_replace ((inject_Z l - inject_Z (obs_lane obs)) * 2.5)
        with (inject_Z l * 2.5 - inject_Z (obs_lane obs) * 2.5) by ring.
      exact Hd. }
    nra.
  - intros [Hl [Hlo Hhi]]. subst l. split; [split|]; try assumption.
    unfold pow2.
    setoid_replace (inject_Z (obs_lane obs) * LANE_WIDTH
                    - inject_Z (obs_lane obs) * LANE_WIDTH) with 0 by ring.
    nra.
Qed.

(** ** The collision loop in closed form *)

Ltac eval_setters :=
  cbv [handleGameOver afterHits
       set_gameState set_score set_highScore set_showShareCard
       set_finalScoreRef set_localStorage set_shareTimers set_lane
       set_obstacles set_speed set_obstacleIdRef set_lastSpawnZ
       set_playerRef_x
       gameState score highScore showShareCard finalScoreRef localStorage
       shareTimers lane obstacles speed obstacleIdRef lastSpawnZ playerRef_x].

Lemma handleGameOver_first (snap acc : State) :
  handleGameOver snap (set_gameState gameover acc) = afterHits snap acc 0.
Proof.
  destruct snap, acc. eval_setters.
  destruct (_ <? _)%Z; f_equal; lia.
Qed.

Lemma afterHits_again (snap acc : State) (n : nat) :
  afterHits snap (afterHits snap acc 0) n = afterHits snap acc (S n).
Proof.
  destruct snap, acc. eval_setters.
  destruct (_ <? _)%Z; f_equal; lia.
Qed.

Lemma hits_cons (x : Q) (obs : Obstacle) (l : list Obstacle) :
  hits x (obs :: l) = if collides x obs then S (hits x l) else hits x l.
Proof.
  unfold hits. cbn [filter]. destruct (collides x obs); reflexivity.
Qed.

Lemma hits_zero (x : Q) (l : list Obstacle) :
  hits x l = O <-> existsb (collides x) l = false.
Proof.
  induction l as [|o l IH]; [cbn; tauto|].
  rewrite hits_cons. cbn [existsb].
  destruct (collides x o); cbn; [split; discriminate | exact IH].
Qed.

Lemma collisionPass_hits (snap : State) (l : list Obstacle) :
  forall acc,
    fold_left
      (fun acc obs =>
         if collides (playerRef_x acc) obs
         then handleGameOver snap (set_gameState gameover acc)
         else acc) l acc
    = match hits (playerRef_x acc) l with
      | O => acc
      | S n => afterHits snap acc n
      end.
Proof.
  induction l as [|obs l IH]; intro acc; [reflexivity|].
  cbn [fold_left]. rewrite hits_cons.
  destruct (collides (playerRef_x acc) obs) eqn:Hc.
  - rewrite IH, handleGameOver_first.
    change (playerRef_x (afterHits snap acc 0)) with (playerRef_x acc).
    destruct (hits (playerRef_x acc) l) as [|n];
      [reflexivity | apply afterHits_again].
  - rewrite IH. reflexivity.
Qed.

Lemma collisionPass_closed (snap acc : State) :
  collisionPass snap acc
  = match hits (playerRef_x acc) (obstacles snap) with
    | O => acc
    | S n => afterHits snap acc n
    end.
Proof. apply collisionPass_hits. Qed.

(** ** The frame callback, field by field *)

Ltac project_setters :=
  cbn [set_gameState set_score set_highScore set_showShareCard
       set_finalScoreRef set_localStorage set_shareTimers set_lane
       set_obstacles set_speed set_obstacleIdRef set_lastSpawnZ
       set_playerRef_x afterHits
       gameState score highScore showShareCard finalScoreRef localStorage
       shareTimers lane obstacles speed obstacleIdRef lastSpawnZ playerRef_x]
    in *.

Ltac frame_cases :=
  unfold frameBody; cbv zeta; project_setters;
  destruct (moveAndScore _ _ _ _) as [updated score'] eqn:Hms;
  project_setters;
  destruct (0 <? lastSpawnZ _) eqn:Hcur;
  [| destruct (spawnWave _ _) as [obs nextId] eqn:Hsp ];
  rewrite collisionPass_closed; project_setters;
  destruct (hits _ _) as [|n] eqn:Hh;
  project_setters.

Section FrameFields.

Variables (delta : Q) (rnd : Draws) (snap : State).

Lemma frame_gameState :
  gameState (frameBody delta rnd snap)
  = if existsb (collides (inject_Z (lane snap) * LANE_WIDTH)) (obstacles snap)
    then gameover else gameState snap.
Proof.
  destruct (existsb _ _) eqn:He.
  - frame_cases; try reflexivity;
      apply hits_zero in Hh; congruence.
  - apply hits_zero in He. frame_cases; try reflexivity; congruence.
Qed.

Lemma frame_score :
  score (frameBody delta rnd snap)
  = snd (moveAndScore (speed snap) delta (obstacles snap) (score snap)).
Proof. frame_cases; reflexivity. Qed.

Lemma frame_speed :
  speed (frameBody delta rnd snap)
  = speed snap + SPEED_INCREMENT * delta * 0.1.
Proof. frame_cases; reflexivity. Qed.

Lemma frame_lane :
  lane (frameBody delta rnd snap) = lane snap.
Proof. frame_cases; reflexivity. Qed.

Lemma frame_showShareCard :
  showShareCard (frameBody delta rnd snap) = showShareCard snap.
Proof. frame_cases; reflexivity. Qed.

Lemma frame_lastSpawnZ :
  lastSpawnZ (frameBody delta rnd snap)
  = if 0 <? lastSpawnZ snap then lastSpawnZ snap - speed snap * delta
    else 8 + gapDraw rnd * 4.
Proof. frame_cases; reflexivity. Qed.

Lemma frame_obstacles :
  obstacles (frameBody delta rnd snap)
  = let updated :=
      fst (moveAndScore (speed snap) delta (obstacles snap) (score snap)) in
    if 0 <? lastSpawnZ snap then updated
    else fst (spawnWave (blockedLanes rnd) (updated, obstacleIdRef snap)).
Proof. frame_cases; try rewrite Hsp; reflexivity. Qed.

Lemma frame_obstacleIdRef :
  obstacleIdRef (frameBody delta rnd snap)
  = let updated :=
      fst (moveAndScore (speed snap) delta (obstacles snap) (score snap)) in
    if 0 <? lastSpawnZ snap then obstacleIdRef snap
    else snd (spawnWave (blockedLanes rnd) (updated, obstacleIdRef snap)).
Proof. frame_cases; try rewrite Hsp; reflexivity. Qed.

Lemma frame_highScore :
  highScore (frameBody delta rnd snap)
  = if existsb (collides (inject_Z (lane snap) * LANE_WIDTH)) (obstacles snap)
    then (if (highScore snap <? score snap)%Z then score snap
          else highScore snap)
    else highScore snap.
Proof.
  destruct (existsb _ _) eqn:He.
  - frame_cases; try reflexivity; apply hits_zero in Hh; congruence.
  - apply hits_zero in He. frame_cases; try reflexivity; congruence.
Qed.

Lemma frame_localStorage :
  localStorage (frameBody delta rnd snap)
  = if existsb (collides (inject_Z (lane snap) * LANE_WIDTH)) (obstacles snap)
    then (if (highScore snap <? score snap)%Z then Some (score snap)
          else localStorage snap)
    else localStorage snap.
Proof.
  destruct (existsb _ _) eqn:He.
  - frame_cases; try reflexivity; apply hits_zero in Hh; congruence.
  - apply hits_zero in He. frame_cases; try reflexivity; congruence.
Qed.

Lemma frame_finalScoreRef :
  finalScoreRef (frameBody delta rnd snap)
  = if existsb (collides (inject_Z (lane snap) * LANE_WIDTH)) (obstacles snap)
    then score snap else finalScoreRef snap.
Proof.
  destruct (existsb _ _) eqn:He.
  - frame_cases; try reflexivity; apply hits_zero in Hh; congruence.
  - apply hits_zero in He. frame_cases; try reflexivity; congruence.
Qed.

Lemma commit_same before after :
  gameState after <> playing -> commit before after = after.
Proof.
  intro H. unfold commit, resetEffect.
  destruct (GameState_eqb _ _); [reflexivity|].
  destruct (gameState after); congruence.
Qed.

Lemma useFrame_playing :
  gameState snap = playing ->
  useFrame delta rnd snap = frameBody delta rnd snap.
Proof.
  intro Hp. unfold useFrame. rewrite Hp.
  destruct (existsb (collides (inject_Z (lane snap) * LANE_WIDTH))
                    (obstacles snap)) eqn:He.
  - apply commit_same. rewrite frame_gameState, He. discriminate.
  - unfold commit. rewrite frame_gameState, He, Hp. reflexivity.
Qed.

Lemma useFrame_idle :
  gameState snap <> playing -> useFrame delta rnd snap = snap.
Proof.
  intro H. unfold useFrame. destruct (gameState snap); congruence.
Qed.

End FrameFields.

(** ** Collision detection (claim C1) *)

Lemma frame_gameover_iff delta rnd st :
  gameState st = playing ->
  (gameState (useFrame delta rnd st) = gameover <->
   exists obs, In obs (obstacles st) /\
               collides (inject_Z (lane st) * LANE_WIDTH) obs = true).
Proof.
  intro Hp. rewrite useFrame_playing by assumption.
  rewrite frame_gameState, Hp.
  destruct (existsb _ _) eqn:He.
  - apply existsb_exists in He. tauto.
  - split; [discriminate|]. intro Hex.
    apply existsb_exists in Hex. congruence.
Qed.

Lemma frame_gameover_window delta rnd st :
  gameState st = playing ->
  (gameState (useFrame delta rnd st) = gameover <->
   exists obs, In obs (obstacles st) /\ obs_lane obs = lane st /\
               -1.5 < obs_z obs /\ obs_z obs < 1.5).
Proof.
  intro Hp. rewrite frame_gameover_iff by assumption.
  split; intros [obs [Hin H]]; exists obs; (split; [assumption|]);
    apply collides_iff; assumption.
Qed.

Lemma frame_phase_cases delta rnd st :
  gameState st = playing ->
  gameState (useFrame delta rnd st) = playing \/
  gameState (useFrame delta rnd st) = gameover.
Proof.
  intro Hp. rewrite useFrame_playing by assumption.
  rewrite frame_gameState, Hp. destruct (existsb _ _); auto.
Qed.

(** C1, as the code has it: a frame taken in phase [playing] ends the game
    exactly when some obstacle of the rendered registry is in the player's
    lane with its position strictly between -1.5 and 1.5.  Hence obstacles in
    other lanes never end the game, and an obstacle of the player's lane at
    position 0 always does. *)
Theorem C1_collision_open_window delta rnd st :
  gameState st = playing ->
  (gameState (useFrame delta rnd st) = gameover <->
   exists obs, In obs (obstacles st) /\ obs_lane obs = lane st /\
               -1.5 < obs_z obs /\ obs_z obs < 1.5)
  /\ (gameState (useFrame delta rnd st) = playing \/
      gameState (useFrame delta rnd st) = gameover)
  /\ ((forall obs, In obs (obstacles st) -> obs_lane obs <> lane st) ->
      gameState (useFrame delta rnd st) = playing)
  /\ ((exists obs, In obs (obstacles st) /\ obs_lane obs = lane st /\
                   obs_z obs == 0) ->
      gameState (useFrame delta rnd st) = gameover).
Proof.
  intro Hp.
  pose proof (frame_gameover_window delta rnd st Hp) as Hiff.
  pose proof (frame_phase_cases delta rnd st Hp) as Hcases.
  repeat split; try apply Hiff; try assumption.
  - intro Hother. destruct Hcases as [|Hover]; [assumption|exfalso].
    apply Hiff in Hover. destruct Hover as [obs [Hin [Hl _]]].
    exact (Hother obs Hin Hl).
  - intros [obs [Hin [Hl Hz]]]. apply Hiff. exists obs.
    repeat split; try assumption; rewrite Hz; reflexivity.
Qed.

Lemma C1_collision_open_window_witness :
  gameState (playingWith [mkObstacle 0 0 0 false]) = playing /\
  gameState (useFrame (1 # 60) someDraws (playingWith [mkObstacle 0 0 0 false]))
  = gameover.
Proof.
  split; [reflexivity|].
  apply (C1_collision_open_window (1 # 60) someDraws
           (playingWith [mkObstacle 0 0 0 false]) eq_refl).
  exists (mkObstacle 0 0 0 false).
  split; [left; reflexivity|]. split; reflexivity.
Defined.

(** C1 with the closed window fails: an obstacle of the player's lane at
    position 1.5 exactly lies in [[-1.5, 1.5]] and the frame leaves the phase
    at [playing]. *)
Lemma C1_closed_window_counterexample :
  let st := playingWith [mkObstacle 0 1.5 0 false] in
  gameState st = playing /\
  (exists obs, In obs (obstacles st) /\ obs_lane obs = lane st /\
               -1.5 <= obs_z obs /\ obs_z obs <= 1.5) /\
  gameState (useFrame (1 # 60) someDraws st) <> gameover.
Proof.
  cbv zeta. split; [reflexivity|]. split.
  - exists (mkObstacle 0 1.5 0 false).
    split; [left; reflexivity|]. split; [reflexivity|].
    cbn [obs_z]. split; lra.
  - vm_compute. discriminate.
Qed.

(** ** Scenarios *)

Example other_lane_no_collision :
  gameState (useFrame (1 # 60) someDraws
               (set_lane 1 (playingWith [mkObstacle 0 0 (-1) false])))
  = playing.
Proof. reflexivity. Qed.

Example scored_then_despawned :
  updates [(12, 1); (12, 1); (12, 1); (12, 1); (12, 1); (12, 1); (12, 1);
           (12, 1)]
          [mkObstacle 0 80 0 false] 0
  = ([], 10%Z).
Proof. reflexivity. Qed.

Example despawned_unscored :
  updates [(15, 1); (15, 1); (15, 1); (15, 1); (15, 1); (15, 1)]
          [mkObstacle 0 80 0 false] 0
  = ([], 0%Z).
Proof. reflexivity. Qed.

Example three_lefts_from_the_right :
  map (fun s => lane s)
      [run [KeyDown "d"] (playingWith []);
       run [KeyDown "d"; KeyDown "d"] (playingWith []);
       run [KeyDown "d"; KeyDown "A"; KeyDown "a"; KeyDown "ArrowLeft"]
           (playingWith [])]
  = [1; 1; -1]%Z.
Proof. reflexivity. Qed.

(** ** Scoring (claims C2 and C10) *)

Lemma scorePass_closed l : forall s,
  scorePass l s = (marked l, (s + credits l)%Z).
Proof.
  unfold credits.
  induction l as [|obs l IH]; intro s; cbn [scorePass marked map filter].
  - cbn. f_equal. lia.
  - destruct (scorable obs); rewrite IH; fold (marked l); cbn [length];
      f_equal; lia.
Qed.

Lemma moveAndScore_closed speed delta prev s :
  moveAndScore speed delta prev s
  = (marked (advance speed delta prev),
     (s + credits (advance speed delta prev))%Z).
Proof. apply scorePass_closed. Qed.

Lemma updates_closed steps : forall reg s,
  updates steps reg s = (regAfter steps reg, (s + earned steps reg)%Z).
Proof.
  induction steps as [|[speed delta] rest IH]; intros reg s;
    cbn [updates regAfter earned].
  - f_equal. lia.
  - rewrite moveAndScore_closed, IH. f_equal. lia.
Qed.

Lemma advance_app speed delta l1 l2 :
  advance speed delta (l1 ++ l2)
  = advance speed delta l1 ++ advance speed delta l2.
Proof. unfold advance. rewrite map_app, filter_app. reflexivity. Qed.

Lemma marked_app l1 l2 : marked (l1 ++ l2) = marked l1 ++ marked l2.
Proof. apply map_app. Qed.

Lemma credits_app l1 l2 : credits (l1 ++ l2) = (credits l1 + credits l2)%Z.
Proof. unfold credits. rewrite filter_app, length_app. lia. Qed.

Lemma regAfter_app steps : forall l1 l2,
  regAfter steps (l1 ++ l2) = regAfter steps l1 ++ regAfter steps l2.
Proof.
  induction steps as [|[speed delta] rest IH]; intros l1 l2; cbn [regAfter].
  - reflexivity.
  - rewrite advance_app, marked_app. apply IH.
Qed.

Lemma earned_app steps : forall l1 l2,
  earned steps (l1 ++ l2) = (earned steps l1 + earned steps l2)%Z.
Proof.
  induction steps as [|[speed delta] rest IH]; intros l1 l2; cbn [earned].
  - reflexivity.
  - rewrite advance_app, marked_app, credits_app, IH. lia.
Qed.

Lemma earned_nil steps : earned steps [] = 0%Z.
Proof.
  induction steps as [|[speed delta] rest IH]; cbn [earned]; [reflexivity|].
  cbn. exact IH.
Qed.

Lemma contribution_earned steps l1 obs l2 s :
  contribution steps l1 obs l2 s = earned steps [obs].
Proof.
  unfold contribution. rewrite !updates_closed. cbn [snd].
  change (obs :: l2) with ([obs] ++ l2).
  rewrite !earned_app. lia.
Qed.

Lemma advance_single speed delta obs :
  advance speed delta [obs]
  = if OBSTACLE_DESPAWN_DISTANCE <? obs_z obs - speed * delta
    then [moveObstacle speed delta obs] else [].
Proof. reflexivity. Qed.

Lemma earned_passed steps : forall obs,
  obs_passed obs = true -> earned steps [obs] = 0%Z.
Proof.
  induction steps as [|[speed delta] rest IH]; intros obs Hp; cbn [earned].
  - reflexivity.
  - rewrite advance_single.
    destruct (OBSTACLE_DESPAWN_DISTANCE <? _).
    + unfold credits, marked, scorable. cbn [filter map moveObstacle obs_passed].
      rewrite Hp. cbn [negb andb length].
      rewrite IH by exact Hp. reflexivity.
    + cbn. apply earned_nil.
Qed.

Lemma earned_unpassed steps : forall obs,
  obs_passed obs = false ->
  earned steps [obs] = if crosses steps (obs_z obs) then 10%Z else 0%Z.
Proof.
  induction steps as [|[speed delta] rest IH]; intros obs Hp;
    cbn [earned crosses].
  - reflexivity.
  - rewrite advance_single.
    destruct (OBSTACLE_DESPAWN_DISTANCE <? _) eqn:Hlive; cbn [andb].
    + unfold credits, marked, scorable.
      cbn [filter map moveObstacle obs_passed obs_z].
      rewrite Hp. cbn [negb andb].
      destruct (obs_z obs - speed * delta <? -2) eqn:Hlow; cbn [orb length].
      * rewrite earned_passed by reflexivity. reflexivity.
      * rewrite IH by exact Hp. reflexivity.
    + cbn. apply earned_nil.
Qed.

Lemma marked_flags l :
  Forall2 (fun before after =>
             after = before \/
             (obs_passed before = false /\ obs_z before < -2 /\
              after = markPassed before))
          l (marked l).
Proof.
  induction l as [|obs l IH]; cbn [marked map]; constructor; [|exact IH].
  unfold scorable.
  destruct (obs_passed obs) eqn:Hp; cbn [negb andb]; [left; reflexivity|].
  destruct (Qltb_reflect (obs_z obs) (-2)); [right|left]; auto.
Qed.

Lemma unpassed_marked l :
  (unpassed (marked l) + length (filter scorable l) = unpassed l)%nat.
Proof.
  unfold unpassed.
  induction l as [|obs l IH]; cbn [marked map filter]; [reflexivity|].
  fold (marked l). unfold scorable at 1 3.
  destruct (obs_passed obs) eqn:Hp; cbn [negb andb].
  - rewrite Hp. cbn [negb]. exact IH.
  - destruct (obs_z obs <? -2); cbn [markPassed obs_passed negb length].
    + lia.
    + rewrite Hp. cbn [negb length]. lia.
Qed.

(** C2: the score after a frame is the one the movement-and-scoring updater
    returns.  In one run of the updater a flag only ever goes from false to
    true, it does so for the unpassed obstacles of the moved registry that
    are below -2, and the score grows by 10 for each of them.  Over any number
    of frames an obstacle adds 0 or 10 to the score: nothing once it is
    passed, and 10 exactly when it is unpassed and is at some frame below
    -2 while still above the despawn distance; in particular 10, whatever
    the later frames are, when the first frame takes it between -10 and
    -2. *)
Theorem C2_passed_credited_once steps l1 obs l2 s :
  let c := contribution steps l1 obs l2 s in
  (forall delta rnd st,
     gameState st = playing ->
     score (useFrame delta rnd st)
     = snd (moveAndScore (speed st) delta (obstacles st) (score st))) /\
  (forall speed delta prev s0,
     let moved := advance speed delta prev in
     let r := moveAndScore speed delta prev s0 in
     Forall2 (fun before after =>
                after = before \/
                (obs_passed before = false /\ obs_z before < -2 /\
                 after = markPassed before))
             moved (fst r) /\
     (snd r - s0 =
      10 * (Z.of_nat (unpassed moved) - Z.of_nat (unpassed (fst r))))%Z) /\
  (c = 0 \/ c = 10)%Z /\
  (obs_passed obs = true -> c = 0%Z) /\
  (c = 10%Z <-> obs_passed obs = false /\ crosses steps (obs_z obs) = true) /\
  (forall speed delta rest,
     steps = (speed, delta) :: rest ->
     obs_passed obs = false ->
     -10 < obs_z obs - speed * delta ->
     obs_z obs - speed * delta < -2 ->
     c = 10%Z).
Proof.
  cbv zeta. rewrite contribution_earned.
  split; [|split; [|split; [|split; [|split]]]].
  - intros delta rnd st Hp. rewrite useFrame_playing by assumption.
    apply frame_score.
  - intros speed delta prev s0. rewrite moveAndScore_closed. cbn [fst snd].
    split; [apply marked_flags|].
    pose proof (unpassed_marked (advance speed delta prev)) as H.
    unfold credits. lia.
  - destruct (obs_passed obs) eqn:Hp.
    + left. apply earned_passed. exact Hp.
    + rewrite earned_unpassed by exact Hp.
      destruct (crosses steps (obs_z obs)); auto.
  - apply earned_passed.
  - destruct (obs_passed obs) eqn:Hp.
    + rewrite earned_passed by exact Hp.
      split; [discriminate | intros [H _]; discriminate].
    + rewrite earned_unpassed by exact Hp.
      destruct (crosses steps (obs_z obs));
        split; try discriminate; auto.
      intros [_ H]. discriminate.
  - intros speed delta rest -> Hp Hlive Hlow.
    rewrite earned_unpassed by exact Hp. cbn [crosses].
    apply Qltb_lt in Hlive, Hlow. unfold OBSTACLE_DESPAWN_DISTANCE.
    rewrite Hlive, Hlow. reflexivity.
Qed.

Lemma C2_passed_credited_once_witness :
  contribution [(15, 0.2); (15, 0.2); (15, 0.2); (15, 0.2)]
               [] (mkObstacle 7 0.5 1 false) [] 120 = 10%Z.
Proof.
  destruct (C2_passed_credited_once
              [(15, 0.2); (15, 0.2); (15, 0.2); (15, 0.2)]
              [] (mkObstacle 7 0.5 1 false) [] 120%Z)
    as [_ [_ [_ [_ [_ H]]]]].
  apply (H 15 0.2 [(15, 0.2); (15, 0.2); (15, 0.2)]); reflexivity.
Defined.

(** C10: an obstacle that one frame takes from above -2 to the despawn
    distance -10 or beyond is filtered out before the scoring pass: the
    registry and the score after the frame are those of the registry without
    it, so it is never marked and adds nothing to the score, in this frame or
    later. *)
Theorem C10_despawn_before_scoring delta rnd st l1 obs l2 :
  gameState st = playing ->
  obstacles st = l1 ++ obs :: l2 ->
  -2 < obs_z obs ->
  obs_z obs - speed st * delta <= -10 ->
  let st' := useFrame delta rnd st in
  let without := useFrame delta rnd (set_obstacles (l1 ++ l2) st) in
  advance (speed st) delta [obs] = [] /\
  moveAndScore (speed st) delta (l1 ++ obs :: l2) (score st)
  = moveAndScore (speed st) delta (l1 ++ l2) (score st) /\
  obstacles st' = obstacles without /\
  score st' = score without /\
  (forall steps,
     contribution ((speed st, delta) :: steps) l1 obs l2 (score st) = 0%Z).
Proof.
  intros Hp Hreg Hhigh Hgone. cbv zeta.
  assert (Hadv : advance (speed st) delta [obs] = []).
  { rewrite advance_single.
    destruct (Qltb_reflect OBSTACLE_DESPAWN_DISTANCE
                           (obs_z obs - speed st * delta)) as [H|]; [|reflexivity].
    unfold OBSTACLE_DESPAWN_DISTANCE in H. lra. }
  assert (Hsame : moveAndScore (speed st) delta (l1 ++ obs :: l2) (score st)
                  = moveAndScore (speed st) delta (l1 ++ l2) (score st)).
  { rewrite !moveAndScore_closed.
    change (obs :: l2) with ([obs] ++ l2).
    rewrite !advance_app, Hadv. reflexivity. }
  split; [exact Hadv|]. split; [exact Hsame|].
  rewrite !useFrame_playing by (try assumption; reflexivity).
  rewrite !frame_obstacles, !frame_score. project_setters.
  rewrite Hreg, Hsame.
  split; [reflexivity|]. split; [reflexivity|].
  intro steps. rewrite contribution_earned. cbn [earned].
  rewrite Hadv. cbn. apply earned_nil.
Qed.

Lemma C10_despawn_before_scoring_witness :
  let st := set_speed 90 (playingWith [mkObstacle 3 (-1) 0 false]) in
  score (useFrame 0.1 someDraws st) = score st /\
  obstacles (useFrame 0.1 someDraws st) = [].
Proof.
  cbv zeta.
  pose (st := set_speed 90 (playingWith [mkObstacle 3 (-1) 0 false])).
  destruct (C10_despawn_before_scoring 0.1 someDraws st
              [] (mkObstacle 3 (-1) 0 false) [])
    as [_ [_ [Hobs [Hscore _]]]].
  - reflexivity.
  - reflexivity.
  - reflexivity.
  - vm_compute. discriminate.
  - fold st. split.
    + rewrite Hscore. vm_compute. reflexivity.
    + rewrite Hobs. vm_compute. reflexivity.
Defined.

(** ** Spawning (claims C3 and C4) *)

Lemma spawnWave_closed blocked : forall prev nextId,
  spawnWave blocked (prev, nextId)
  = (prev ++ wave blocked nextId, (nextId + Z.of_nat (length blocked))%Z).
Proof.
  unfold spawnWave.
  induction blocked as [|b rest IH]; intros prev nextId;
    cbn [fold_left wave length].
  - rewrite app_nil_r. f_equal. lia.
  - cbn [spawnObstacle]. rewrite IH, <- app_assoc. cbn [app].
    f_equal. lia.
Qed.

Lemma wave_lanes blocked : forall nextId,
  map obs_lane (wave blocked nextId) = blocked.
Proof.
  induction blocked as [|b rest IH]; intro nextId; cbn [wave map obs_lane];
    [reflexivity | rewrite IH; reflexivity].
Qed.

Lemma wave_fresh blocked : forall nextId,
  Forall (fun obs => obs_z obs = OBSTACLE_SPAWN_DISTANCE /\
                     obs_passed obs = false)
         (wave blocked nextId).
Proof.
  induction blocked as [|b rest IH]; intro nextId; cbn [wave]; constructor;
    [split; reflexivity | apply IH].
Qed.

Lemma arrange_perm {A : Type} (p : Arrangement) (l : list A) :
  Permutation l (arrange p l).
Proof.
  destruct l as [|a [|b [|c [|d l]]]]; try apply Permutation_refl.
  destruct p; cbn [arrange].
  - apply Permutation_refl.
  - apply perm_skip, perm_swap.
  - apply perm_swap.
  - apply perm_trans with [b; a; c]; [apply perm_swap | apply perm_skip, perm_swap].
  - apply perm_trans with [a; c; b]; [apply perm_skip, perm_swap | apply perm_swap].
  - apply (Permutation_rev [a; b; c]).
Qed.

Lemma numObstacles_two rnd :
  numObstacles rnd = 2%nat <-> 0.7 < countDraw rnd.
Proof.
  unfold numObstacles.
  destruct (Qltb_reflect 0.7 (countDraw rnd)); split; intro; 
    try reflexivity; try assumption; try discriminate; contradiction.
Qed.

Lemma numObstacles_range rnd :
  numObstacles rnd = 1%nat \/ numObstacles rnd = 2%nat.
Proof. unfold numObstacles. destruct (0.7 <? countDraw rnd); auto. Qed.

Lemma blockedLanes_length rnd :
  length (blockedLanes rnd) = numObstacles rnd.
Proof.
  unfold blockedLanes, shuffled.
  destruct (numObstacles_range rnd) as [-> | ->];
    destruct (sortDraw rnd); reflexivity.
Qed.

Lemma blockedLanes_NoDup rnd : NoDup (blockedLanes rnd).
Proof.
  unfold blockedLanes, shuffled.
  destruct (numObstacles_range rnd) as [-> | ->];
    destruct (sortDraw rnd); cbn;
    repeat (constructor; [cbn; intuition discriminate|]); constructor.
Qed.

Lemma blockedLanes_open rnd :
  exists open, In open lanes /\ ~ In open (blockedLanes rnd).
Proof.
  unfold blockedLanes, shuffled.
  destruct (numObstacles_range rnd) as [-> | ->];
    destruct (sortDraw rnd); cbn;
    first [ exists 1%Z; split; [tauto | intuition discriminate]
          | exists 0%Z; split; [tauto | intuition discriminate]
          | exists (-1)%Z; split; [tauto | intuition discriminate] ].
Qed.

Lemma frame_spawn delta rnd st :
  gameState st = playing ->
  lastSpawnZ st <= 0 ->
  obstacles (useFrame delta rnd st)
  = fst (moveAndScore (speed st) delta (obstacles st) (score st))
    ++ wave (blockedLanes rnd) (obstacleIdRef st).
Proof.
  intros Hp Hcur. rewrite useFrame_playing by assumption.
  rewrite frame_obstacles. cbv zeta.
  apply Qltb_ge in Hcur. rewrite Hcur.
  rewrite spawnWave_closed. reflexivity.
Qed.

(** C4: the wave a frame spawns blocks the first one or two lanes of a
    rearrangement of the three lanes, two exactly when the random draw is
    above 0.7 (a set of draws of length 0.3 in [[0, 1)]); the lanes of the
    wave are pairwise distinct, every obstacle of the wave is at the spawn
    distance with [passed] false, and some lane is left open. *)
Theorem C4_wave_composition delta rnd st :
  gameState st = playing ->
  lastSpawnZ st <= 0 ->
  let w := wave (blockedLanes rnd) (obstacleIdRef st) in
  obstacles (useFrame delta rnd st)
  = fst (moveAndScore (speed st) delta (obstacles st) (score st)) ++ w /\
  map obs_lane w = firstn (numObstacles rnd) (shuffled rnd) /\
  Permutation lanes (shuffled rnd) /\
  (length w = 1 \/ length w = 2)%nat /\
  (length w = 2%nat <-> 0.7 < countDraw rnd) /\
  NoDup (map obs_lane w) /\
  Forall (fun obs => obs_z obs = 80 /\ obs_passed obs = false) w /\
  exists open, In open lanes /\ ~ In open (map obs_lane w).
Proof.
  intros Hp Hcur. cbv zeta.
  assert (Hlen : length (wave (blockedLanes rnd) (obstacleIdRef st))
                 = numObstacles rnd).
  { rewrite <- (length_map obs_lane), wave_lanes. apply blockedLanes_length. }
  rewrite wave_lanes, Hlen.
  split; [apply frame_spawn; assumption|].
  split; [reflexivity|].
  split; [apply arrange_perm|].
  split; [apply numObstacles_range|].
  split; [apply numObstacles_two|].
  split; [apply blockedLanes_NoDup|].
  split; [apply wave_fresh|].
  apply blockedLanes_open.
Qed.

Lemma C4_wave_composition_witness :
  let st := set_lastSpawnZ (-0.5) (playingWith []) in
  let rnd := {| countDraw := 0.9; sortDraw := P201; gapDraw := 0.25 |} in
  gameState st = playing /\ lastSpawnZ st <= 0 /\
  obstacles (useFrame (1 # 60) rnd st)
  = [mkObstacle 0 80 1 false; mkObstacle 1 80 (-1) false].
Proof.
  cbv zeta.
  split; [reflexivity|]. split; [vm_compute; discriminate|].
  rewrite (proj1 (C4_wave_composition (1 # 60)
                    {| countDraw := 0.9; sortDraw := P201; gapDraw := 0.25 |}
                    (set_lastSpawnZ (-0.5) (playingWith []))
                    eq_refl ltac:(vm_compute; discriminate))).
  vm_compute. reflexivity.
Defined.

Lemma wave_nonempty rnd nextId : wave (blockedLanes rnd) nextId <> [].
Proof.
  intro H. apply (f_equal (@length Obstacle)) in H.
  rewrite <- (length_map obs_lane), wave_lanes, blockedLanes_length in H.
  destruct (numObstacles_range rnd) as [E|E]; rewrite E in H; discriminate.
Qed.

(** C3, as the code has it: a frame that finds the cursor above zero takes
    [speed * delta] off it and spawns nothing, also when that brings the
    cursor to zero or below; a frame that finds the cursor at zero or below
    does not count it down: it spawns a wave at distance 80 and sets the
    cursor to [8 + r * 4] for the draw [r] of [[0, 1)], a value from 8 to
    12. *)
Theorem C3_spawn_cursor delta rnd st :
  gameState st = playing ->
  isDraw (gapDraw rnd) ->
  let st' := useFrame delta rnd st in
  let updated :=
    fst (moveAndScore (speed st) delta (obstacles st) (score st)) in
  (0 < lastSpawnZ st ->
   lastSpawnZ st' = lastSpawnZ st - speed st * delta /\
   obstacles st' = updated /\
   obstacleIdRef st' = obstacleIdRef st) /\
  (lastSpawnZ st <= 0 ->
   lastSpawnZ st' = 8 + gapDraw rnd * 4 /\
   8 <= lastSpawnZ st' /\ lastSpawnZ st' < 12 /\
   exists w, w <> [] /\ obstacles st' = updated ++ w /\
             Forall (fun obs => obs_z obs = 80 /\ obs_passed obs = false) w).
Proof.
  intros Hp [Hr0 Hr1]. cbv zeta. split.
  - intro Hpos. rewrite useFrame_playing by assumption.
    rewrite frame_lastSpawnZ, frame_obstacles, frame_obstacleIdRef. cbv zeta.
    apply Qltb_lt in Hpos. rewrite Hpos. auto.
  - intro Hcur.
    assert (Hc : lastSpawnZ (useFrame delta rnd st) = 8 + gapDraw rnd * 4).
    { rewrite useFrame_playing by assumption. rewrite frame_lastSpawnZ.
      apply Qltb_ge in Hcur. rewrite Hcur. reflexivity. }
    rewrite Hc. split; [reflexivity|]. split; [lra|]. split; [lra|].
    exists (wave (blockedLanes rnd) (obstacleIdRef st)).
    split; [apply wave_nonempty|].
    split; [apply frame_spawn; assumption | apply wave_fresh].
Qed.

Lemma C3_spawn_cursor_witness :
  let st := set_lastSpawnZ 0 (playingWith []) in
  gameState st = playing /\ isDraw (gapDraw someDraws) /\ lastSpawnZ st <= 0 /\
  lastSpawnZ (useFrame 0.02 someDraws st) = 8 + 0.5 * 4 /\
  lastSpawnZ (useFrame 0.02 someDraws st) < 12.
Proof.
  cbv zeta.
  assert (Hd : isDraw (gapDraw someDraws)) by (split; vm_compute; congruence).
  assert (Hz : lastSpawnZ (set_lastSpawnZ 0 (playingWith [])) <= 0)
    by (vm_compute; discriminate).
  split; [reflexivity|]. split; [exact Hd|]. split; [exact Hz|].
  destruct (C3_spawn_cursor 0.02 someDraws (set_lastSpawnZ 0 (playingWith []))
              eq_refl Hd) as [_ H].
  destruct (H Hz) as [Heq [_ [Hlt _]]].
  split; [exact Heq | exact Hlt].
Defined.

(** C3 as stated fails: the frame below brings the cursor from 1 to -0.5,
    so the cursor reaches zero or below on it, and it spawns no wave and
    leaves the cursor at -0.5; the wave comes with the next frame, which
    sets the cursor to 10 without counting it down. *)
Lemma C3_spawn_on_reaching_zero_counterexample :
  let st := set_lastSpawnZ 1 (playingWith []) in
  let st' := useFrame 0.1 someDraws st in
  let st'' := useFrame 0.1 someDraws st' in
  gameState st = playing /\
  0 < lastSpawnZ st /\
  lastSpawnZ st - speed st * 0.1 <= 0 /\
  obstacles st' = [] /\
  lastSpawnZ st' == -0.5 /\
  gameState st' = playing /\
  obstacles st'' = [mkObstacle 0 80 (-1) false] /\
  lastSpawnZ st'' == 10 /\
  ~ lastSpawnZ st'' == lastSpawnZ st' - speed st' * 0.1.
Proof.
  cbv zeta. repeat split; try (vm_compute; congruence).
Qed.

(** ** Collision timing (claim C9) *)

Lemma useFrame_lane delta rnd s : lane (useFrame delta rnd s) = lane s.
Proof.
  destruct (gameState s) eqn:Hg.
  - rewrite useFrame_idle by congruence. reflexivity.
  - rewrite useFrame_playing by assumption. apply frame_lane.
  - rewrite useFrame_idle by congruence. reflexivity.
Qed.

Lemma Q_eq_dec (a b : Q) : {a = b} + {a <> b}.
Proof. decide equality; [apply Pos.eq_dec | apply Z.eq_dec]. Qed.

Lemma Obstacle_eq_dec (o o' : Obstacle) : {o = o'} + {o <> o'}.
Proof.
  decide equality; auto using Bool.bool_dec, Z.eq_dec, Q_eq_dec.
Qed.


Lemma advance_In speed delta obs prev :
  In obs prev ->
  OBSTACLE_DESPAWN_DISTANCE < obs_z obs - speed * delta ->
  In (moveObstacle speed delta obs) (advance speed delta prev).
Proof.
  intros Hin Hlive. unfold advance. apply filter_In. split.
  - apply in_map. exact Hin.
  - apply Qltb_lt. exact Hlive.
Qed.

Lemma marked_In obs l :
  In obs l ->
  exists obs', In obs' (marked l) /\
               obs_z obs' = obs_z obs /\ obs_lane obs' = obs_lane obs.
Proof.
  intro Hin.
  exists (if scorable obs then markPassed obs else obs). split.
  - unfold marked.
    apply (in_map (fun o => if scorable o then markPassed o else o)).
    exact Hin.
  - destruct (scorable obs); split; reflexivity.
Qed.

Lemma frame_keeps delta rnd st obs :
  gameState st = playing ->
  In obs (obstacles st) ->
  OBSTACLE_DESPAWN_DISTANCE < obs_z obs - speed st * delta ->
  exists obs', In obs' (obstacles (useFrame delta rnd st)) /\
               obs_z obs' = obs_z obs - speed st * delta /\
               obs_lane obs' = obs_lane obs.
Proof.
  intros Hp Hin Hlive.
  destruct (marked_In _ _ (advance_In _ _ _ _ Hin Hlive))
    as [obs' [Hin' [Hz Hl]]].
  exists obs'. split; [|split; assumption].
  rewrite useFrame_playing by assumption.
  rewrite frame_obstacles. cbv zeta.
  rewrite moveAndScore_closed. cbn [fst].
  destruct (0 <? lastSpawnZ st); [exact Hin'|].
  rewrite spawnWave_closed. cbn [fst]. apply in_or_app. left. exact Hin'.
Qed.

(** C9: the collision test of a frame reads the positions of the last
    render.  An obstacle of the player's lane that is outside the window
    when a frame starts and inside it after the frame's movement does not
    pass the test on that frame, so the phase stays [playing] unless
    another obstacle passes it; on the frame after, taken in the phase
    [playing], it passes the test and the game ends. *)
Theorem C9_collision_reads_rendered_positions delta rnd delta' rnd' st obs :
  gameState st = playing ->
  In obs (obstacles st) ->
  obs_lane obs = lane st ->
  obs_z obs <= -1.5 \/ 1.5 <= obs_z obs ->
  -1.5 < obs_z obs - speed st * delta ->
  obs_z obs - speed st * delta < 1.5 ->
  collides (inject_Z (lane st) * LANE_WIDTH) obs = false /\
  ((forall o, In o (obstacles st) -> o <> obs ->
              collides (inject_Z (lane st) * LANE_WIDTH) o = false) ->
   gameState (useFrame delta rnd st) = playing) /\
  (gameState (useFrame delta rnd st) = playing ->
   gameState (useFrame delta' rnd' (useFrame delta rnd st)) = gameover).
Proof.
  intros Hp Hin Hlane Hout Hlo Hhi.
  assert (Hmiss : collides (inject_Z (lane st) * LANE_WIDTH) obs = false).
  { destruct (collides _ obs) eqn:Hc; [exfalso|reflexivity].
    apply collides_iff in Hc. destruct Hc as [_ [Ha Hb]].
    destruct Hout; lra. }
  split; [exact Hmiss|]. split.
  - intro Hothers.
    destruct (frame_phase_cases delta rnd st Hp) as [|Hover];
      [assumption|exfalso].
    apply (frame_gameover_iff delta rnd st Hp) in Hover.
    destruct Hover as [o [Ho Hc]].
    destruct (Obstacle_eq_dec o obs) as [->|Hne]; [congruence|].
    rewrite (Hothers o Ho Hne) in Hc. discriminate.
  - intro H1.
    apply (frame_gameover_window delta' rnd' _ H1).
    destruct (frame_keeps delta rnd st obs Hp Hin) as [obs' [Hin' [Hz Hl]]].
    { unfold OBSTACLE_DESPAWN_DISTANCE. lra. }
    exists obs'. rewrite useFrame_lane, Hz, Hl. auto.
Qed.

Lemma C9_collision_reads_rendered_positions_witness :
  let st := playingWith [mkObstacle 0 1.6 0 false] in
  gameState st = playing /\
  -1.5 < 1.6 - speed st * 0.02 /\ 1.6 - speed st * 0.02 < 1.5 /\
  gameState (useFrame 0.02 someDraws st) = playing /\
  gameState (useFrame 0.02 someDraws (useFrame 0.02 someDraws st)) = gameover.
Proof.
  cbv zeta.
  split; [reflexivity|]. split; [reflexivity|]. split; [reflexivity|].
  destruct (C9_collision_reads_rendered_positions
              0.02 someDraws 0.02 someDraws
              (playingWith [mkObstacle 0 1.6 0 false])
              (mkObstacle 0 1.6 0 false)) as [_ [H1 H2]].
  - reflexivity.
  - left. reflexivity.
  - reflexivity.
  - right. vm_compute. discriminate.
  - reflexivity.
  - reflexivity.
  - assert (Hplay : gameState (useFrame 0.02 someDraws
                      (playingWith [mkObstacle 0 1.6 0 false])) = playing).
    { apply H1. intros o [<-|[]] Hne. contradiction Hne. reflexivity. }
    split; [exact Hplay | exact (H2 Hplay)].
Defined.

(** ** Speed (claim C5) *)

Lemma useFrame_speed delta rnd st :
  speed (useFrame delta rnd st)
  = match gameState st with
    | playing => speed st + SPEED_INCREMENT * delta * 0.1
    | _ => speed st
    end.
Proof.
  destruct (gameState st) eqn:Hg.
  - rewrite useFrame_idle by congruence. reflexivity.
  - rewrite useFrame_playing by assumption. apply frame_speed.
  - rewrite useFrame_idle by congruence. reflexivity.
Qed.

Lemma handleKeyDown_speed key s : speed (handleKeyDown key s) = speed s.
Proof.
  unfold handleKeyDown.
  destruct (gameState s), (isLeftKey key), (isRightKey key); reflexivity.
Qed.

Lemma handleTouchEnd_speed x0 x1 s : speed (handleTouchEnd x0 x1 s) = speed s.
Proof.
  unfold handleTouchEnd. cbv zeta.
  destruct (gameState s), (30 <? Qabs (x1 - x0)), (0 <? x1 - x0); reflexivity.
Qed.

Lemma closeShareCard_eq s :
  closeShareCard s = set_gameState menu (set_showShareCard false s).
Proof. unfold closeShareCard. apply commit_same. discriminate. Qed.

(** C5: a frame taken in phase [playing] sets the speed to
    [speed + 0.5 * delta * 0.1], which for [0 <= delta] is at least the speed
    before; the sum is not capped, so a frame can take the speed above any
    bound; and no event other than the start of a run (which sets it to 15)
    lowers the speed. *)
Theorem C5_speed_monotone delta rnd st :
  gameState st = playing ->
  0 <= delta ->
  speed (useFrame delta rnd st) = speed st + SPEED_INCREMENT * delta * 0.1 /\
  speed (useFrame delta rnd st) == speed st + 0.5 * delta * 0.1 /\
  speed st <= speed (useFrame delta rnd st) /\
  (forall bound, exists d, 0 <= d /\ bound < speed (useFrame d rnd st)) /\
  (forall e s,
     match e with
     | Frame d _ => 0 <= d
     | Play => False
     | _ => True
     end ->
     speed s <= speed (step e s)) /\
  (forall s, gameState s = menu -> speed (step Play s) = 15).
Proof.
  intros Hp Hd.
  assert (Heq : speed (useFrame delta rnd st)
                = speed st + SPEED_INCREMENT * delta * 0.1).
  { rewrite useFrame_speed, Hp. reflexivity. }
  split; [exact Heq|]. rewrite Heq. unfold SPEED_INCREMENT.
  split; [reflexivity|]. split; [lra|]. split; [|split].
  - intro bound.
    exists (Qabs (bound - speed st) * 20 + 1).
    pose proof (Qabs_nonneg (bound - speed st)) as Hn.
    pose proof (Qle_Qabs (bound - speed st)) as Hle.
    split; [lra|].
    rewrite useFrame_speed, Hp. unfold SPEED_INCREMENT. lra.
  - intros e s He. destruct e as [d r|key|x0 x1| | |]; cbn [step].
    + rewrite useFrame_speed. unfold SPEED_INCREMENT.
      destruct (gameState s); lra.
    + rewrite handleKeyDown_speed. lra.
    + rewrite handleTouchEnd_speed. lra.
    + contradiction.
    + unfold shareTimerFires. destruct (shareTimers s); cbn; lra.
    + destruct (showShareCard s); [rewrite closeShareCard_eq; cbn|]; lra.
  - intros s Hm. cbn [step]. rewrite Hm.
    unfold startGame, commit. project_setters. rewrite Hm. reflexivity.
Qed.

Lemma C5_speed_monotone_witness :
  let st := playingWith [] in
  gameState st = playing /\ 0 <= 1 # 60 /\
  speed st <= speed (useFrame (1 # 60) someDraws st).
Proof.
  cbv zeta. split; [reflexivity|].
  assert (Hd : 0 <= 1 # 60) by (vm_compute; discriminate).
  split; [exact Hd|].
  apply (C5_speed_monotone (1 # 60) someDraws (playingWith []) eq_refl Hd).
Defined.

(** ** Restart (claim C6) *)

(** C6: a click on PLAY in phase [menu] enters [playing] with the lane at
    0, an empty registry, speed 15, score 0, the spawn cursor at 80 and the
    id counter at 0, whatever the state before. *)
Theorem C6_start_resets_run st :
  gameState st = menu ->
  let st' := step Play st in
  gameState st' = playing /\
  lane st' = 0%Z /\
  obstacles st' = [] /\
  speed st' = 15 /\
  score st' = 0%Z /\
  lastSpawnZ st' = 80 /\
  obstacleIdRef st' = 0%Z.
Proof.
  intro Hm. cbv zeta. cbn [step]. rewrite Hm.
  unfold startGame, commit. project_setters. rewrite Hm.
  cbn [GameState_eqb]. unfold resetEffect. project_setters.
  repeat split.
Qed.

Lemma C6_start_resets_run_witness :
  gameState afterRun450 = menu /\
  score (step Play afterRun450) = 0%Z /\
  obstacles (step Play afterRun450) = [].
Proof.
  split; [reflexivity|].
  destruct (C6_start_resets_run afterRun450 eq_refl)
    as [_ [_ [Hobs [_ [Hscore _]]]]].
  split; assumption.
Defined.

(** ** High score (claim C7) *)

(** C7: the frame that ends the game records the score of the render it
    ran in as the final score; when that score is above the high score it
    becomes the high score, in the state and in storage, and otherwise both
    are left as they were.  A frame that does not end the game leaves both
    as they were too. *)
Theorem C7_high_score_on_game_over delta rnd st :
  gameState st = playing ->
  let st' := useFrame delta rnd st in
  (gameState st' = gameover ->
   finalScoreRef st' = score st /\
   ((highScore st < score st)%Z ->
    highScore st' = score st /\ localStorage st' = Some (score st)) /\
   ((score st <= highScore st)%Z ->
    highScore st' = highScore st /\ localStorage st' = localStorage st)) /\
  (gameState st' = playing ->
   highScore st' = highScore st /\ localStorage st' = localStorage st).
Proof.
  intro Hp. cbv zeta. rewrite useFrame_playing by assumption.
  rewrite frame_gameState, frame_finalScoreRef, frame_highScore,
    frame_localStorage, Hp.
  destruct (existsb _ _); split; intro H; try discriminate.
  - split; [reflexivity|]. split; intro Hcmp.
    + apply Z.ltb_lt in Hcmp. rewrite Hcmp. auto.
    + apply Z.ltb_ge in Hcmp. rewrite Hcmp. auto.
  - auto.
Qed.

Lemma C7_high_score_on_game_over_witness :
  (gameState (aboutToEnd 300 200) = playing /\
   gameState (useFrame (1 # 60) someDraws (aboutToEnd 300 200)) = gameover /\
   highScore (useFrame (1 # 60) someDraws (aboutToEnd 300 200)) = 300%Z /\
   localStorage (useFrame (1 # 60) someDraws (aboutToEnd 300 200))
   = Some 300%Z) /\
  (gameState (aboutToEnd 150 200) = playing /\
   gameState (useFrame (1 # 60) someDraws (aboutToEnd 150 200)) = gameover /\
   highScore (useFrame (1 # 60) someDraws (aboutToEnd 150 200)) = 200%Z /\
   localStorage (useFrame (1 # 60) someDraws (aboutToEnd 150 200))
   = Some 200%Z).
Proof.
  split.
  - split; [reflexivity|]. split; [reflexivity|].
    destruct (C7_high_score_on_game_over (1 # 60) someDraws
                (aboutToEnd 300 200) eq_refl) as [H _].
    destruct (H eq_refl) as [_ [Hup _]].
    apply Hup. reflexivity.
  - split; [reflexivity|]. split; [reflexivity|].
    destruct (C7_high_score_on_game_over (1 # 60) someDraws
                (aboutToEnd 150 200) eq_refl) as [H _].
    destruct (H eq_refl) as [_ [_ Hkeep]].
    apply Hkeep. discriminate.
Defined.

(** ** Lane changes (claim C8) *)

Lemma moveLeft_lane l : isLane l -> isLane (moveLeft l).
Proof. unfold isLane, moveLeft. lia. Qed.

Lemma moveRight_lane l : isLane l -> isLane (moveRight l).
Proof. unfold isLane, moveRight. lia. Qed.

Create HintDb lanes.
#[local] Hint Resolve moveLeft_lane moveRight_lane : lanes.

Lemma handleKeyDown_lane key s :
  isLane (lane s) -> isLane (lane (handleKeyDown key s)).
Proof.
  intro H. unfold handleKeyDown.
  destruct (gameState s), (isLeftKey key), (isRightKey key);
    project_setters; auto with lanes.
Qed.

Lemma handleTouchEnd_lane x0 x1 s :
  isLane (lane s) -> isLane (lane (handleTouchEnd x0 x1 s)).
Proof.
  intro H. unfold handleTouchEnd. cbv zeta.
  destruct (gameState s), (30 <? Qabs (x1 - x0)), (0 <? x1 - x0);
    project_setters; auto with lanes.
Qed.

Lemma step_lane e s : isLane (lane s) -> isLane (lane (step e s)).
Proof.
  intro H. destruct e as [d r|key|x0 x1| | |]; cbn [step].
  - rewrite useFrame_lane. exact H.
  - apply handleKeyDown_lane, H.
  - apply handleTouchEnd_lane, H.
  - destruct (gameState s) eqn:Hg; try exact H.
    unfold startGame, commit. project_setters. rewrite Hg.
    cbn [GameState_eqb]. unfold resetEffect. project_setters.
    unfold isLane. lia.
  - unfold shareTimerFires. destruct (shareTimers s); exact H.
  - destruct (showShareCard s); [rewrite closeShareCard_eq|]; exact H.
Qed.

Lemma reachable_lane saved s : reachable saved s -> isLane (lane s).
Proof.
  induction 1 as [|e s _ IH].
  - cbn. unfold isLane. lia.
  - apply step_lane, IH.
Qed.

(** C8: while playing, a left key or a swipe to the left sets the lane to
    [max (-1) (lane - 1)], a right key or a swipe to the right to
    [min 1 (lane + 1)], and any other key or a short swipe leaves it; in any
    other phase the handlers change nothing.  A lane in -1..1 stays there
    (and every state the page can reach has one), a move at the bound is a
    no-op, and three left keys from lane 0 end in lane -1. *)
Theorem C8_lane_moves_clamped st key x0 x1 :
  isLane (lane st) ->
  (gameState st = playing ->
   (isLeftKey key = true ->
    lane (handleKeyDown key st) = Z.max (-1) (lane st - 1)) /\
   (isLeftKey key = false -> isRightKey key = true ->
    lane (handleKeyDown key st) = Z.min 1 (lane st + 1)) /\
   (isLeftKey key = false -> isRightKey key = false ->
    handleKeyDown key st = st) /\
   (30 < Qabs (x1 - x0) -> x1 - x0 <= 0 ->
    lane (handleTouchEnd x0 x1 st) = Z.max (-1) (lane st - 1)) /\
   (30 < Qabs (x1 - x0) -> 0 < x1 - x0 ->
    lane (handleTouchEnd x0 x1 st) = Z.min 1 (lane st + 1)) /\
   (Qabs (x1 - x0) <= 30 -> handleTouchEnd x0 x1 st = st) /\
   (lane st = 0%Z ->
    lane (run [KeyDown "ArrowLeft"; KeyDown "ArrowLeft"; KeyDown "ArrowLeft"]
              st) = (-1)%Z)) /\
  (gameState st <> playing ->
   handleKeyDown key st = st /\ handleTouchEnd x0 x1 st = st) /\
  isLane (lane (handleKeyDown key st)) /\
  isLane (lane (handleTouchEnd x0 x1 st)) /\
  (lane st = (-1)%Z -> moveLeft (lane st) = lane st) /\
  (lane st = 1%Z -> moveRight (lane st) = lane st) /\
  (forall saved s, reachable saved s -> isLane (lane s)).
Proof.
  intro Hl.
  split; [|split; [|split; [|split; [|split; [|split]]]]].
  - intro Hp. unfold handleKeyDown, handleTouchEnd. cbv zeta. rewrite Hp.
    split; [|split; [|split; [|split; [|split; [|split]]]]].
    + intros ->. reflexivity.
    + intros -> ->. reflexivity.
    + intros -> ->. reflexivity.
    + intros Hfar Hneg. apply Qltb_lt in Hfar. apply Qltb_ge in Hneg.
      rewrite Hfar, Hneg. reflexivity.
    + intros Hfar Hpos. apply Qltb_lt in Hfar, Hpos.
      rewrite Hfar, Hpos. reflexivity.
    + intro Hnear. apply Qltb_ge in Hnear. rewrite Hnear. reflexivity.
    + intro H0. cbn [run fold_left step]. unfold handleKeyDown.
      project_setters. rewrite Hp. cbn [isLeftKey String.eqb Ascii.eqb
        Bool.eqb orb]. project_setters. rewrite Hp. project_setters.
      rewrite Hp. project_setters. rewrite H0. reflexivity.
  - intro Hn. unfold handleKeyDown, handleTouchEnd.
    destruct (gameState st); try congruence; split; reflexivity.
  - apply handleKeyDown_lane, Hl.
  - apply handleTouchEnd_lane, Hl.
  - intros ->. reflexivity.
  - intros ->. reflexivity.
  - apply reachable_lane.
Qed.

Lemma C8_lane_moves_clamped_witness :
  isLane (lane (playingWith [])) /\
  lane (run [KeyDown "ArrowLeft"; KeyDown "ArrowLeft"; KeyDown "ArrowLeft"]
            (playingWith [])) = (-1)%Z.
Proof.
  assert (Hl : isLane (lane (playingWith []))) by (vm_compute; split; discriminate).
  split; [exact Hl|].
  destruct (C8_lane_moves_clamped (playingWith []) "ArrowLeft" 0 0 Hl)
    as [H _].
  destruct (H eq_refl) as [_ [_ [_ [_ [_ [_ H3]]]]]].
  apply H3. reflexivity.
Defined.

(** * Further properties of the game loop *)

(** ** Events, case by case *)

Lemma reachable_run saved es : forall s,
  reachable saved s -> reachable saved (run es s).
Proof.
  unfold run. induction es as [|e es IH]; intros s Hs; cbn [fold_left].
  - exact Hs.
  - apply IH. constructor. exact Hs.
Qed.

Lemma played_run saved es : forall s,
  Forall wellTimed es -> played saved s -> played saved (run es s).
Proof.
  unfold run. induction es as [|e es IH]; intros s Hes Hs; cbn [fold_left].
  - exact Hs.
  - inversion Hes; subst. apply IH; [assumption|].
    constructor; assumption.
Qed.

Lemma played_reachable saved s : played saved s -> reachable saved s.
Proof. induction 1; constructor; assumption. Qed.

Lemma startGame_menu s :
  gameState s = menu ->
  startGame s = resetEffect (set_showShareCard false (set_gameState playing s)).
Proof.
  intro Hm. unfold startGame, commit. project_setters. rewrite Hm. reflexivity.
Qed.

Lemma handleKeyDown_set key s :
  exists l, handleKeyDown key s = set_lane l s.
Proof.
  unfold handleKeyDown.
  destruct (gameState s), (isLeftKey key), (isRightKey key);
    try (eexists; reflexivity); exists (lane s); destruct s; reflexivity.
Qed.

Lemma handleTouchEnd_set x0 x1 s :
  exists l, handleTouchEnd x0 x1 s = set_lane l s.
Proof.
  unfold handleTouchEnd. cbv zeta.
  destruct (gameState s), (30 <? Qabs (x1 - x0)), (0 <? x1 - x0);
    try (eexists; reflexivity); exists (lane s); destruct s; reflexivity.
Qed.

(** An event is a frame taken while playing, a start from the menu, or it
    leaves the world alone. *)
Lemma step_cases e s :
  (exists delta rnd, e = Frame delta rnd /\ gameState s = playing /\
                     step e s = frameBody delta rnd s) \/
  (e = Play /\ gameState s = menu /\
   step e s = resetEffect (set_showShareCard false (set_gameState playing s))) \/
  sameWorld s (step e s).
Proof.
  destruct e as [d r|key|x0 x1| | |]; cbn [step].
  - destruct (gameState s) eqn:Hg.
    + right; right. rewrite useFrame_idle by congruence. repeat split.
    + left. exists d, r. repeat split. apply useFrame_playing. exact Hg.
    + right; right. rewrite useFrame_idle by congruence. repeat split.
  - right; right. destruct (handleKeyDown_set key s) as [l ->]. repeat split.
  - right; right. destruct (handleTouchEnd_set x0 x1 s) as [l ->]. repeat split.
  - destruct (gameState s) eqn:Hg.
    + right; left. repeat split. apply startGame_menu. exact Hg.
    + right; right. repeat split.
    + right; right. repeat split.
  - right; right. unfold shareTimerFires.
    destruct (shareTimers s); repeat split.
  - right; right. destruct (showShareCard s);
      [rewrite closeShareCard_eq|]; repeat split.
Qed.

(** ** The registry after a frame *)

Lemma frame_registry delta rnd s :
  obstacles (frameBody delta rnd s)
  = marked (advance (speed s) delta (obstacles s))
    ++ (if 0 <? lastSpawnZ s then []
        else wave (blockedLanes rnd) (obstacleIdRef s)).
Proof.
  rewrite frame_obstacles. cbv zeta. rewrite moveAndScore_closed. cbn [fst].
  destruct (0 <? lastSpawnZ s).
  - rewrite app_nil_r. reflexivity.
  - rewrite spawnWave_closed. reflexivity.
Qed.

Lemma frame_counter delta rnd s :
  obstacleIdRef (frameBody delta rnd s)
  = (obstacleIdRef s
     + (if (0 <? lastSpawnZ s)%Q then 0
        else Z.of_nat (length (blockedLanes rnd))))%Z.
Proof.
  rewrite frame_obstacleIdRef. cbv zeta.
  destruct (0 <? lastSpawnZ s).
  - lia.
  - rewrite spawnWave_closed. reflexivity.
Qed.

Lemma frame_credits delta rnd s :
  score (frameBody delta rnd s)
  = (score s + credits (advance (speed s) delta (obstacles s)))%Z.
Proof. rewrite frame_score, moveAndScore_closed. reflexivity. Qed.

Lemma updated_In speed delta prev obs' :
  In obs' (marked (advance speed delta prev)) ->
  exists obs,
    In obs prev /\
    obs_id obs' = obs_id obs /\
    obs_lane obs' = obs_lane obs /\
    obs_z obs' = obs_z obs - speed * delta /\
    -10 < obs_z obs' /\
    (obs_z obs' < -2 -> obs_passed obs' = true) /\
    (obs_passed obs = true -> obs_passed obs' = true).
Proof.
  unfold marked, advance. intro Hin.
  apply in_map_iff in Hin. destruct Hin as [a [Ha Hin]].
  apply filter_In in Hin. destruct Hin as [Hin Hlive].
  apply in_map_iff in Hin. destruct Hin as [obs [Hmv Hin]].
  apply Qltb_lt in Hlive. unfold OBSTACLE_DESPAWN_DISTANCE in Hlive.
  exists obs. split; [exact Hin|]. subst a obs'.
  unfold scorable.
  cbn [moveObstacle obs_id obs_z obs_lane obs_passed] in *.
  destruct (obs_passed obs) eqn:Hp; cbn [negb andb].
  - cbn [moveObstacle obs_id obs_z obs_lane obs_passed].
    repeat split; auto.
  - destruct (Qltb_reflect (obs_z obs - speed * delta) (-2)) as [Hlow|Hhigh];
      cbn [moveObstacle markPassed obs_id obs_z obs_lane obs_passed].
    + repeat split; auto.
    + repeat split; auto; try (intro; contradiction); intro; discriminate.
Qed.

Lemma wave_In blocked : forall nextId obs,
  In obs (wave blocked nextId) ->
  obs_z obs = 80 /\ obs_passed obs = false /\ In (obs_lane obs) blocked /\
  (nextId <= obs_id obs < nextId + Z.of_nat (length blocked))%Z.
Proof.
  induction blocked as [|b rest IH]; intros nextId obs Hin;
    cbn [wave] in Hin; [contradiction|].
  destruct Hin as [<-|Hin].
  - cbn. repeat split; auto; lia.
  - destruct (IH _ _ Hin) as [Hz [Hp [Hl Hid]]].
    cbn [length In]. repeat split; auto; lia.
Qed.

Lemma blockedLanes_lane rnd l : In l (blockedLanes rnd) -> isLane l.
Proof.
  unfold blockedLanes, shuffled, isLane.
  destruct (numObstacles_range rnd) as [-> | ->];
    destruct (sortDraw rnd); cbn; intuition lia.
Qed.

(** ** Shape of the registry *)

Lemma sameWorld_shape a b : sameWorld a b -> shapeOk a -> shapeOk b.
Proof. unfold shapeOk. intros [_ [_ [_ [<- _]]]] H. exact H. Qed.

Lemma step_shape e s : shapeOk s -> shapeOk (step e s).
Proof.
  intro H.
  destruct (step_cases e s) as [[d [r [_ [_ ->]]]] | [[_ [_ ->]] | Hq]].
  - unfold shapeOk in *. rewrite frame_registry.
    apply Forall_app. split.
    + apply Forall_forall. intros o' Ho'.
      destruct (updated_In _ _ _ _ Ho') as [o [Ho [_ [Hl [_ [Hlive [Hf _]]]]]]].
      rewrite Forall_forall in H. destruct (H o Ho) as [Hlane _].
      rewrite Hl. auto.
    + destruct (0 <? lastSpawnZ s); [constructor|].
      apply Forall_forall. intros o Ho.
      destruct (wave_In _ _ _ Ho) as [Hz [_ [Hl _]]].
      split; [exact (blockedLanes_lane _ _ Hl)|].
      rewrite Hz. split; [reflexivity | intro Hlow; exfalso; lra].
  - unfold shapeOk, resetEffect. project_setters. constructor.
  - exact (sameWorld_shape _ _ Hq H).
Qed.

Lemma reachable_shape saved s : reachable saved s -> shapeOk s.
Proof.
  induction 1 as [|e s _ IH]; [constructor | apply step_shape, IH].
Qed.

(** ** Ids *)

Lemma marked_ids l : map obs_id (marked l) = map obs_id l.
Proof.
  unfold marked. rewrite map_map. apply map_ext.
  intro obs. destruct (scorable obs); reflexivity.
Qed.

Lemma advance_ids_In speed delta l i :
  In i (map obs_id (advance speed delta l)) -> In i (map obs_id l).
Proof.
  intro H. apply in_map_iff in H. destruct H as [a [<- Ha]].
  unfold advance in Ha. apply filter_In in Ha. destruct Ha as [Ha _].
  apply in_map_iff in Ha. destruct Ha as [obs [<- Hobs]].
  apply (in_map obs_id) in Hobs. exact Hobs.
Qed.

Lemma advance_ids_NoDup speed delta l :
  NoDup (map obs_id l) -> NoDup (map obs_id (advance speed delta l)).
Proof.
  induction l as [|obs l IH]; intro H; [constructor|].
  inversion H as [|i ids Hnotin Hrest]; subst.
  change (obs :: l) with ([obs] ++ l). rewrite advance_app, map_app.
  rewrite advance_single.
  destruct (OBSTACLE_DESPAWN_DISTANCE <? _); cbn [map app]; [|auto].
  constructor; [|auto].
  intro Hin. apply advance_ids_In in Hin. contradiction.
Qed.

Lemma wave_ids_NoDup blocked : forall nextId,
  NoDup (map obs_id (wave blocked nextId)).
Proof.
  induction blocked as [|b rest IH]; intro nextId; cbn [wave map obs_id];
    constructor; [|apply IH].
  intro Hin. apply in_map_iff in Hin. destruct Hin as [obs [Hid Hobs]].
  apply wave_In in Hobs. lia.
Qed.

Lemma sameWorld_ids a b : sameWorld a b -> idsOk a -> idsOk b.
Proof.
  unfold idsOk. intros [_ [_ [_ [<- [_ [<- _]]]]]] H. exact H.
Qed.

Lemma step_ids e s : idsOk s -> idsOk (step e s).
Proof.
  intros [Hc [Hb Hd]].
  destruct (step_cases e s) as [[d [r [_ [_ ->]]]] | [[_ [_ ->]] | Hq]].
  - unfold idsOk. rewrite frame_registry, frame_counter.
    set (n := if 0 <? lastSpawnZ s then 0%Z
              else Z.of_nat (length (blockedLanes r))).
    assert (Hn : (0 <= n)%Z) by (subst n; destruct (0 <? lastSpawnZ s); lia).
    split; [lia|]. split.
    + apply Forall_app. split.
      * apply Forall_forall. intros o' Ho'.
        destruct (updated_In _ _ _ _ Ho') as [o [Ho [Hid _]]].
        rewrite Forall_forall in Hb. specialize (Hb o Ho). lia.
      * subst n. destruct (0 <? lastSpawnZ s); [constructor|].
        apply Forall_forall. intros o Ho. apply wave_In in Ho. lia.
    + rewrite map_app. apply NoDup_app.
      * rewrite marked_ids. apply advance_ids_NoDup, Hd.
      * destruct (0 <? lastSpawnZ s); [constructor | apply wave_ids_NoDup].
      * intros i Hi Hw. rewrite marked_ids in Hi.
        apply advance_ids_In in Hi.
        apply in_map_iff in Hi. destruct Hi as [o [<- Ho]].
        rewrite Forall_forall in Hb. specialize (Hb o Ho).
        destruct (0 <? lastSpawnZ s); [contradiction|].
        apply in_map_iff in Hw. destruct Hw as [w [Hid Hw]].
        apply wave_In in Hw. lia.
  - unfold idsOk, resetEffect. project_setters.
    split; [lia|]. split; constructor.
  - exact (sameWorld_ids _ _ Hq (conj Hc (conj Hb Hd))).
Qed.

Lemma reachable_ids saved s : reachable saved s -> idsOk s.
Proof.
  induction 1 as [|e s _ IH]; [|apply step_ids, IH].
  unfold idsOk. cbn. split; [lia|]. split; constructor.
Qed.

(** ** Score *)

Lemma unpassed_app l1 l2 :
  unpassed (l1 ++ l2) = (unpassed l1 + unpassed l2)%nat.
Proof. unfold unpassed. rewrite filter_app, length_app. reflexivity. Qed.

Lemma unpassed_advance speed delta l :
  (unpassed (advance speed delta l) <= unpassed l)%nat.
Proof.
  induction l as [|obs l IH]; [apply Nat.le_refl|].
  change (obs :: l) with ([obs] ++ l).
  rewrite advance_app, !unpassed_app, advance_single.
  assert (E : unpassed [moveObstacle speed delta obs] = unpassed [obs]).
  { unfold unpassed. cbn. destruct (obs_passed obs); reflexivity. }
  destruct (OBSTACLE_DESPAWN_DISTANCE <? _).
  - rewrite E. lia.
  - change (unpassed []) with 0%nat. lia.
Qed.

Lemma unpassed_wave blocked : forall nextId,
  unpassed (wave blocked nextId) = length blocked.
Proof.
  induction blocked as [|b rest IH]; intro nextId; [reflexivity|].
  cbn [wave]. change (?o :: wave rest (nextId + 1))
    with ([o] ++ wave rest (nextId + 1)).
  rewrite unpassed_app, IH. reflexivity.
Qed.

Lemma credits_count l :
  credits l = (10 * Z.of_nat (length (filter scorable l)))%Z.
Proof. reflexivity. Qed.

Lemma sameWorld_score a b : sameWorld a b -> scoreOk a -> scoreOk b.
Proof.
  unfold scoreOk. intros [<- [_ [_ [<- [_ [<- _]]]]]] H. exact H.
Qed.

Lemma step_score e s : scoreOk s -> scoreOk (step e s).
Proof.
  intros [H0 [[k Hk] Hle]].
  destruct (step_cases e s) as [[d [r [_ [_ ->]]]] | [[_ [_ ->]] | Hq]].
  - unfold scoreOk. rewrite frame_registry, frame_counter, frame_credits.
    rewrite credits_count, unpassed_app.
    pose proof (unpassed_marked (advance (speed s) d (obstacles s))) as Hm.
    pose proof (unpassed_advance (speed s) d (obstacles s)) as Ha.
    set (c := length (filter scorable (advance (speed s) d (obstacles s))))
      in *.
    assert (Hw : unpassed (if 0 <? lastSpawnZ s then []
                           else wave (blockedLanes r) (obstacleIdRef s))
                 = Z.to_nat (if (0 <? lastSpawnZ s)%Q then 0
                             else Z.of_nat (length (blockedLanes r)))).
    { destruct (0 <? lastSpawnZ s); [reflexivity|].
      rewrite unpassed_wave, Nat2Z.id. reflexivity. }
    rewrite Hw.
    assert (Hn : (0 <= (if (0 <? lastSpawnZ s)%Q then 0
                        else Z.of_nat (length (blockedLanes r))))%Z)
      by (destruct (0 <? lastSpawnZ s); lia).
    split; [lia|]. split; [exists (k + Z.of_nat c)%Z; lia | lia].
  - unfold scoreOk, resetEffect. project_setters. cbn.
    split; [lia|]. split; [exists 0%Z; reflexivity | lia].
  - exact (sameWorld_score _ _ Hq (conj H0 (conj (ex_intro _ k Hk) Hle))).
Qed.

Lemma reachable_score saved s : reachable saved s -> scoreOk s.
Proof.
  induction 1 as [|e s _ IH]; [|apply step_score, IH].
  unfold scoreOk. cbn. split; [lia|]. split; [exists 0%Z; reflexivity | lia].
Qed.

(** ** High score *)

Lemma step_highScore e s : (highScore s <= highScore (step e s))%Z.
Proof.
  destruct (step_cases e s) as [[d [r [_ [_ ->]]]] | [[_ [_ ->]] | Hq]].
  - rewrite frame_highScore. destruct (existsb _ _); [|lia].
    destruct (Z.ltb_spec (highScore s) (score s)); lia.
  - unfold resetEffect. project_setters. lia.
  - destruct Hq as [_ [<- _]]. lia.
Qed.

Lemma step_storage e s : storageOk s -> storageOk (step e s).
Proof.
  unfold storageOk. intro H.
  destruct (step_cases e s) as [[d [r [_ [_ ->]]]] | [[_ [_ ->]] | Hq]].
  - rewrite frame_highScore, frame_localStorage.
    destruct (existsb _ _); [|exact H].
    destruct (highScore s <? score s)%Z; [reflexivity | exact H].
  - unfold resetEffect. project_setters. exact H.
  - destruct Hq as [_ [<- [<- _]]]. exact H.
Qed.

Lemma reachable_storage saved s : reachable saved s -> storageOk s.
Proof.
  induction 1 as [|e s _ IH]; [|apply step_storage, IH].
  unfold storageOk. reflexivity.
Qed.

(** ** Spacing of the waves *)

Lemma spaced_app l1 : forall l2,
  spaced l1 -> spaced l2 ->
  (forall a b, In a l1 -> In b l2 -> apart a b) ->
  spaced (l1 ++ l2).
Proof.
  induction l1 as [|a l1 IH]; intros l2 H1 H2 Hx; [exact H2|].
  destruct H1 as [Ha H1]. cbn [app spaced]. split.
  - apply Forall_app. split; [exact Ha|].
    apply Forall_forall. intros b Hb. apply Hx; [left; reflexivity | exact Hb].
  - apply IH; auto. intros x y Hx' Hy. apply Hx; [right; exact Hx' | exact Hy].
Qed.

Lemma spaced_map (f : Obstacle -> Obstacle) l :
  (forall a b, apart a b -> apart (f a) (f b)) ->
  spaced l -> spaced (map f l).
Proof.
  intro Hf. induction l as [|a l IH]; intro H; [exact I|].
  destruct H as [Ha H]. cbn [map spaced]. split; [|auto].
  apply Forall_forall. intros b' Hb'.
  apply in_map_iff in Hb'. destruct Hb' as [b [<- Hb]].
  rewrite Forall_forall in Ha. auto.
Qed.

Lemma spaced_filter (p : Obstacle -> bool) l :
  spaced l -> spaced (filter p l).
Proof.
  induction l as [|a l IH]; intro H; [exact I|].
  destruct H as [Ha H]. cbn [filter].
  destruct (p a); [|auto]. cbn [spaced]. split; [|auto].
  apply Forall_forall. intros b Hb. apply filter_In in Hb.
  rewrite Forall_forall in Ha. apply Ha, Hb.
Qed.

Lemma apart_move speed delta a b :
  apart a b -> apart (moveObstacle speed delta a) (moveObstacle speed delta b).
Proof.
  unfold apart. cbn [moveObstacle obs_z obs_lane].
  intros [[Hz Hl] | [H | H]]; [left; split; [lra|exact Hl] | right; left; lra
                             | right; right; lra].
Qed.

Lemma apart_mark a b :
  apart a b ->
  apart (if scorable a then markPassed a else a)
        (if scorable b then markPassed b else b).
Proof.
  destruct (scorable a), (scorable b); exact (fun H => H).
Qed.

Lemma spaced_updated speed delta l :
  spaced l -> spaced (marked (advance speed delta l)).
Proof.
  intro H. unfold marked, advance.
  apply spaced_map; [exact apart_mark|].
  apply spaced_filter, spaced_map; [apply apart_move | exact H].
Qed.

Lemma spaced_wave blocked : forall nextId,
  NoDup blocked -> spaced (wave blocked nextId).
Proof.
  induction blocked as [|b rest IH]; intros nextId Hnd; [exact I|].
  inversion Hnd as [|x xs Hnotin Hrest]; subst.
  cbn [wave spaced]. split; [|apply IH, Hrest].
  apply Forall_forall. intros o Ho.
  destruct (wave_In _ _ _ Ho) as [Hz [_ [Hl _]]].
  left. cbn [obs_z obs_lane]. rewrite Hz. split; [reflexivity|].
  intro E. apply Hnotin. rewrite E. exact Hl.
Qed.

Lemma sameWorld_timed a b : sameWorld a b -> timedOk a -> timedOk b.
Proof.
  unfold timedOk. intros [_ [_ [_ [<- [<- [_ <-]]]]]] H. exact H.
Qed.

Lemma step_timed e s : wellTimed e -> timedOk s -> timedOk (step e s).
Proof.
  intros He [Hv [Hc [Hz Hs]]].
  destruct (step_cases e s) as [[d [r [-> [_ ->]]]] | [[_ [_ ->]] | Hq]].
  - destruct He as [Hd [_ [Hg0 Hg1]]].
    assert (Hm : 0 <= speed s * d) by nra.
    unfold timedOk.
    rewrite frame_speed, frame_lastSpawnZ, frame_registry.
    unfold SPEED_INCREMENT.
    split; [lra|].
    destruct (Qltb_reflect 0 (lastSpawnZ s)) as [Hpos|Hnon].
    + rewrite app_nil_r. split; [lra|]. split.
      * apply Forall_forall. intros o' Ho'.
        destruct (updated_In _ _ _ _ Ho') as [o [Ho [_ [_ [Hz' _]]]]].
        rewrite Forall_forall in Hz. destruct (Hz o Ho) as [Ha Hb].
        rewrite Hz'. split; lra.
      * apply spaced_updated, Hs.
    + assert (Hnon' : lastSpawnZ s <= 0) by lra.
      split; [lra|]. split.
      * apply Forall_app. split.
        -- apply Forall_forall. intros o' Ho'.
           destruct (updated_In _ _ _ _ Ho') as [o [Ho [_ [_ [Hz' _]]]]].
           rewrite Forall_forall in Hz. destruct (Hz o Ho) as [Ha Hb].
           rewrite Hz'. split; lra.
        -- apply Forall_forall. intros o Ho.
           destruct (wave_In _ _ _ Ho) as [Hw _]. rewrite Hw. split; lra.
      * apply spaced_app.
        -- apply spaced_updated, Hs.
        -- apply spaced_wave, blockedLanes_NoDup.
        -- intros o' w Ho' Hw.
           destruct (updated_In _ _ _ _ Ho') as [o [Ho [_ [_ [Hz' _]]]]].
           rewrite Forall_forall in Hz. destruct (Hz o Ho) as [Ha Hb].
           destruct (wave_In _ _ _ Hw) as [Hw' _].
           right; right. rewrite Hz', Hw'. lra.
  - unfold timedOk, resetEffect. project_setters.
    unfold INITIAL_SPEED, OBSTACLE_SPAWN_DISTANCE.
    split; [lra|]. split; [lra|]. split; [constructor | exact I].
  - exact (sameWorld_timed _ _ Hq (conj Hv (conj Hc (conj Hz Hs)))).
Qed.

Lemma played_timed saved s : played saved s -> timedOk s.
Proof.
  induction 1 as [|e s _ IH He]; [|exact (step_timed e s He IH)].
  unfold timedOk. cbn. unfold INITIAL_SPEED, OBSTACLE_SPAWN_DISTANCE.
  split; [lra|]. split; [lra|]. split; [constructor | exact I].
Qed.

(** ** One collision per frame, and the phases *)

Lemma frame_shareTimers delta rnd snap :
  shareTimers (frameBody delta rnd snap)
  = (shareTimers snap
     + hits (inject_Z (lane snap) * LANE_WIDTH) (obstacles snap))%nat.
Proof. frame_cases; lia. Qed.

Lemma frame_playerRef_x delta rnd snap :
  playerRef_x (frameBody delta rnd snap) = inject_Z (lane snap) * LANE_WIDTH.
Proof. frame_cases; reflexivity. Qed.

Lemma apart_no_double_hit l a b :
  apart a b ->
  collides (inject_Z l * LANE_WIDTH) a = true ->
  collides (inject_Z l * LANE_WIDTH) b = true ->
  False.
Proof.
  intros Hab Ha Hb.
  apply collides_iff in Ha, Hb.
  destruct Ha as [La [Ha1 Ha2]], Hb as [Lb [Hb1 Hb2]].
  destruct Hab as [[_ Hl] | [H | H]]; [congruence | lra | lra].
Qed.

Lemma apart_sym a b : apart a b -> apart b a.
Proof.
  intros [[Hz Hl] | [H | H]]; [left | right; right | right; left]; auto.
  split; [symmetry; exact Hz | auto].
Qed.

Lemma spaced_In l a b :
  spaced l -> In a l -> In b l -> a = b \/ apart a b.
Proof.
  induction l as [|x l IH]; intros Hs Ha Hb; [contradiction|].
  destruct Hs as [Hx Hs]. rewrite Forall_forall in Hx.
  destruct Ha as [<-|Ha], Hb as [<-|Hb]; auto.
  right. apply apart_sym. auto.
Qed.

Lemma spaced_hits lane l :
  spaced l -> (hits (inject_Z lane * LANE_WIDTH) l <= 1)%nat.
Proof.
  induction l as [|a l IH]; intro Hs; [cbn; lia|].
  destruct Hs as [Ha Hs]. rewrite hits_cons.
  destruct (collides _ a) eqn:Hc; [|auto].
  assert (H0 : hits (inject_Z lane * LANE_WIDTH) l = 0%nat).
  { apply hits_zero.
    destruct (existsb _ l) eqn:He; [exfalso|reflexivity].
    apply existsb_exists in He. destruct He as [b [Hb Hcb]].
    rewrite Forall_forall in Ha.
    exact (apart_no_double_hit lane a b (Ha b Hb) Hc Hcb). }
  lia.
Qed.

Lemma step_phase e s : timedOk s -> phaseOk s -> phaseOk (step e s).
Proof.
  intros [_ [_ [_ Hs]]] Hp. unfold phaseOk in *.
  destruct e as [d r|key|x0 x1| | |]; cbn [step].
  - destruct (gameState s) eqn:Hg;
      try (rewrite useFrame_idle by congruence; rewrite Hg; exact Hp).
    rewrite useFrame_playing by assumption.
    rewrite frame_shareTimers, frame_showShareCard, frame_gameState, Hg.
    pose proof (spaced_hits (lane s) (obstacles s) Hs) as H1.
    pose proof (hits_zero (inject_Z (lane s) * LANE_WIDTH) (obstacles s)) as Hz.
    destruct (existsb _ _).
    + assert (hits (inject_Z (lane s) * LANE_WIDTH) (obstacles s) <> 0%nat).
      { intro E. apply Hz in E. discriminate. }
      lia.
    + assert (hits (inject_Z (lane s) * LANE_WIDTH) (obstacles s) = 0%nat)
        by (apply Hz; reflexivity).
      lia.
  - destruct (handleKeyDown_set key s) as [l ->]. exact Hp.
  - destruct (handleTouchEnd_set x0 x1 s) as [l ->]. exact Hp.
  - destruct (gameState s) eqn:Hg; try (rewrite Hg; exact Hp).
    rewrite startGame_menu by assumption.
    unfold resetEffect. project_setters.
    destruct (showShareCard s); lia.
  - unfold shareTimerFires. destruct (shareTimers s) as [|n] eqn:Ht;
      [rewrite Ht; exact Hp|].
    project_setters.
    destruct (showShareCard s), (gameState s); lia.
  - destruct (showShareCard s) eqn:Hc; [|rewrite Hc; exact Hp].
    rewrite closeShareCard_eq. project_setters.
    destruct (gameState s); lia.
Qed.

Lemma played_phase saved s : played saved s -> phaseOk s.
Proof.
  induction 1 as [|e s Hs IH He]; [reflexivity|].
  exact (step_phase e s (played_timed saved s Hs) IH).
Qed.

(** ** Speed and elapsed time *)



(** ** Two runs from the same start *)

Lemma step_sameRun e a b :
  isGameEvent e -> sameRun a b -> sameRun (step e a) (step e b).
Proof.
  intros He [Hg [Hs [Hl [Ho [Hv [Hi [Hc Hx]]]]]]].
  destruct e as [d r|key|x0 x1| | |]; cbn [step]; try contradiction.
  - destruct (gameState b) eqn:Hgb.
    + rewrite !useFrame_idle by congruence. repeat split; congruence.
    + rewrite !useFrame_playing by congruence.
      unfold sameRun.
      rewrite !frame_gameState, !frame_score, !frame_lane, !frame_obstacles,
        !frame_speed, !frame_obstacleIdRef, !frame_lastSpawnZ,
        !frame_playerRef_x.
      rewrite Hg, Hs, Hl, Ho, Hv, Hi, Hc, Hgb. repeat split.
    + rewrite !useFrame_idle by congruence. repeat split; congruence.
  - unfold handleKeyDown. rewrite Hg, Hl.
    destruct (gameState b) eqn:Hgb, (isLeftKey key), (isRightKey key);
      unfold sameRun; project_setters; repeat split; congruence.
  - unfold handleTouchEnd. cbv zeta. rewrite Hg, Hl.
    destruct (gameState b) eqn:Hgb, (30 <? Qabs (x1 - x0)), (0 <? x1 - x0);
      unfold sameRun; project_setters; repeat split; congruence.
Qed.

Lemma run_sameRun es : forall a b,
  Forall isGameEvent es -> sameRun a b -> sameRun (run es a) (run es b).
Proof.
  unfold run. induction es as [|e es IH]; intros a b Hes Hab; [exact Hab|].
  inversion Hes; subst. cbn [fold_left].
  apply IH; [assumption|]. apply step_sameRun; assumption.
Qed.

Lemma sampleState_played : played None sampleState.
Proof.
  apply played_run; [|constructor].
  unfold sampleEvents.
  repeat (constructor;
          [first [exact I
                 | repeat split; vm_compute; first [reflexivity | discriminate]]
          |]).
  constructor.
Qed.

Lemma sampleState_reachable : reachable None sampleState.
Proof. apply played_reachable, sampleState_played. Qed.

(** ** Registry invariants *)

(** X1: in every state the page can reach, the obstacles of the registry
    have pairwise distinct ids, each at least 0 and below the id counter. *)
Theorem X1_obstacle_ids_distinct saved s :
  reachable saved s ->
  NoDup (map obs_id (obstacles s)) /\
  Forall (fun obs => (0 <= obs_id obs < obstacleIdRef s)%Z) (obstacles s).
Proof.
  intro H. destruct (reachable_ids saved s H) as [_ [Hb Hd]]. auto.
Qed.

Lemma X1_obstacle_ids_distinct_witness :
  reachable None sampleState /\
  NoDup (map obs_id (obstacles sampleState)) /\
  map obs_id (obstacles sampleState) = [0; 1; 2]%Z.
Proof.
  split; [exact sampleState_reachable|].
  destruct (X1_obstacle_ids_distinct None sampleState sampleState_reachable)
    as [H _].
  split; [exact H|]. vm_compute. reflexivity.
Defined.

(** X2: in every reachable state each obstacle is in one of the lanes -1, 0
    and 1, so the colour lookup [obstacleColors[Math.abs(obs.lane)]] is
    defined: the first colour in lane 0, the second in lanes -1 and 1; the
    third colour of the table is never used. *)
Theorem X2_obstacle_lanes_and_colours saved s :
  reachable saved s ->
  Forall (fun obs =>
            isLane (obs_lane obs) /\
            (obs_lane obs = 0%Z -> obstacleColor obs = Some "#ff0055"%string) /\
            (obs_lane obs <> 0%Z -> obstacleColor obs = Some "#ffff00"%string) /\
            obstacleColor obs <> Some "#00ff88"%string)
         (obstacles s).
Proof.
  intro H. pose proof (reachable_shape saved s H) as Hs.
  unfold shapeOk in Hs. rewrite Forall_forall in *.
  intros obs Hobs. destruct (Hs obs Hobs) as [Hl _].
  split; [exact Hl|]. unfold isLane in Hl. unfold obstacleColor.
  assert (Hc : obs_lane obs = (-1)%Z \/ obs_lane obs = 0%Z \/
               obs_lane obs = 1%Z) by lia.
  destruct Hc as [-> | [-> | ->]]; cbn;
    repeat split; intros; try lia; try reflexivity; discriminate.
Qed.

Lemma X2_obstacle_lanes_and_colours_witness :
  reachable None sampleState /\
  Forall (fun obs => obstacleColor obs <> Some "#00ff88"%string)
         (obstacles sampleState) /\
  map obstacleColor (obstacles sampleState)
  = [Some "#ffff00"; Some "#ffff00"; Some "#ffff00"]%string.
Proof.
  split; [exact sampleState_reachable|].
  pose proof (X2_obstacle_lanes_and_colours None sampleState
                sampleState_reachable) as H.
  split.
  - rewrite Forall_forall in *. intros obs Hobs.
    destruct (H obs Hobs) as [_ [_ [_ Hc]]]. exact Hc.
  - vm_compute. reflexivity.
Defined.

(** X3: in every reachable state each obstacle of the registry is above the
    despawn distance -10, and each obstacle below -2 has its [passed] flag
    set: the registry never holds an unscored obstacle behind the scoring
    threshold. *)
Theorem X3_registry_live_and_flagged saved s :
  reachable saved s ->
  Forall (fun obs => -10 < obs_z obs /\
                     (obs_z obs < -2 -> obs_passed obs = true))
         (obstacles s).
Proof.
  intro H. pose proof (reachable_shape saved s H) as Hs.
  unfold shapeOk in Hs. rewrite Forall_forall in *.
  intros obs Hobs. destruct (Hs obs Hobs) as [_ Hrest]. exact Hrest.
Qed.

Lemma X3_registry_live_and_flagged_witness :
  reachable None sampleState /\
  Forall (fun obs => -10 < obs_z obs /\
                     (obs_z obs < -2 -> obs_passed obs = true))
         (obstacles sampleState) /\
  map obs_passed (obstacles sampleState) = [true; true; false].
Proof.
  split; [exact sampleState_reachable|]. split.
  - exact (X3_registry_live_and_flagged None sampleState
             sampleState_reachable).
  - vm_compute. reflexivity.
Defined.

(** X4: in every reachable state the score is a non-negative multiple of
    10, and the score plus 10 for every unpassed obstacle of the registry is
    at most 10 times the id counter: a run never scores more than 10 points
    per obstacle it has spawned.  No event other than a click on PLAY lowers
    the score. *)
Theorem X4_score_within_spawned saved s :
  reachable saved s ->
  (0 <= score s)%Z /\
  (10 | score s)%Z /\
  (score s + 10 * Z.of_nat (unpassed (obstacles s))
   <= 10 * obstacleIdRef s)%Z /\
  (forall e, e <> Play -> (score s <= score (step e s))%Z).
Proof.
  intro H. destruct (reachable_score saved s H) as [H0 [[k Hk] Hle]].
  split; [exact H0|]. split; [exists k; lia|]. split; [exact Hle|].
  intros e He.
  destruct (step_cases e s) as [[d [r [_ [_ ->]]]] | [[Hplay _] | Hq]].
  - rewrite frame_credits, credits_count. lia.
  - contradiction.
  - destruct Hq as [<- _]. lia.
Qed.

Lemma X4_score_within_spawned_witness :
  reachable None sampleState /\
  score sampleState = 20%Z /\ obstacleIdRef sampleState = 3%Z /\
  (score sampleState + 10 * Z.of_nat (unpassed (obstacles sampleState))
   <= 10 * obstacleIdRef sampleState)%Z.
Proof.
  split; [exact sampleState_reachable|].
  split; [vm_compute; reflexivity|]. split; [vm_compute; reflexivity|].
  destruct (X4_score_within_spawned None sampleState sampleState_reachable)
    as [_ [_ [H _]]].
  exact H.
Defined.

(** X5: no event lowers the high score; an event changes it only when it
    is the frame that ends the game, and then to the score of that render;
    and in every reachable state the high score is the one a reload of the
    page would read from storage. *)
Theorem X5_high_score_kept saved s e :
  reachable saved s ->
  (highScore s <= highScore (step e s))%Z /\
  (highScore (step e s) <> highScore s ->
   gameState s = playing /\ gameState (step e s) = gameover /\
   highScore (step e s) = score s) /\
  highScore (initialState (localStorage s)) = highScore s /\
  localStorage (initialState (localStorage s)) = localStorage s.
Proof.
  intro H. split; [apply step_highScore|]. split.
  - destruct (step_cases e s) as [[d [r [_ [Hg ->]]]] | [[_ [_ ->]] | Hq]].
    + rewrite frame_highScore, frame_gameState.
      destruct (existsb _ _);
        [|intro Hne; exfalso; apply Hne; reflexivity].
      destruct (highScore s <? score s)%Z;
        [auto | intro Hne; exfalso; apply Hne; reflexivity].
    + intro Hne. exfalso. apply Hne.
      unfold resetEffect. project_setters. reflexivity.
    + intro Hne. exfalso. apply Hne. destruct Hq as [_ [<- _]]. reflexivity.
  - pose proof (reachable_storage saved s H) as Hs. unfold storageOk in Hs.
    split; [|reflexivity]. cbn [initialState highScore]. symmetry. exact Hs.
Qed.

Lemma X5_high_score_kept_witness :
  reachable None sampleState /\
  (highScore sampleState
   <= highScore (step (Frame 0.1 someDraws) sampleState))%Z /\
  highScore (initialState (localStorage sampleState)) = highScore sampleState.
Proof.
  split; [exact sampleState_reachable|].
  destruct (X5_high_score_kept None sampleState (Frame 0.1 someDraws)
              sampleState_reachable) as [H1 [_ [H2 _]]].
  split; assumption.
Defined.

(** ** Properties of well-timed runs *)

(** X6: under well-timed events (frames with a delta of at least 0 and
    draws in [[0, 1)]) the speed is never below the initial speed 15, the
    spawn cursor never above 80, and no obstacle is further away than the
    spawn distance 80. *)
Theorem X6_speed_and_distance_bounds saved s :
  played saved s ->
  15 <= speed s /\
  lastSpawnZ s <= 80 /\
  Forall (fun obs => obs_z obs <= 80) (obstacles s).
Proof.
  intro H. destruct (played_timed saved s H) as [Hv [Hc [Hz _]]].
  split; [exact Hv|]. split; [exact Hc|].
  rewrite Forall_forall in *. intros obs Hobs. apply (Hz obs Hobs).
Qed.

Lemma X6_speed_and_distance_bounds_witness :
  played None sampleState /\ 15 <= speed sampleState /\
  lastSpawnZ sampleState <= 80.
Proof.
  split; [exact sampleState_played|].
  destruct (X6_speed_and_distance_bounds None sampleState sampleState_played)
    as [H1 [H2 _]].
  split; assumption.
Defined.



(** X8: under well-timed events at most one obstacle of the registry
    passes the collision test of a frame, so the body of the collision loop
    runs at most once and the frame that ends the game schedules exactly one
    share timer. *)
Theorem X8_one_collision_per_frame saved s :
  played saved s ->
  (forall a b, In a (obstacles s) -> In b (obstacles s) ->
     collides (inject_Z (lane s) * LANE_WIDTH) a = true ->
     collides (inject_Z (lane s) * LANE_WIDTH) b = true ->
     a = b) /\
  (hits (inject_Z (lane s) * LANE_WIDTH) (obstacles s) <= 1)%nat /\
  (forall delta rnd,
     gameState s = playing ->
     shareTimers (useFrame delta rnd s)
     = (shareTimers s
        + match gameState (useFrame delta rnd s) with
          | gameover => 1
          | _ => 0
          end)%nat).
Proof.
  intro H. destruct (played_timed saved s H) as [_ [_ [_ Hs]]].
  pose proof (spaced_hits (lane s) (obstacles s) Hs) as H1.
  split; [|split; [exact H1|]].
  - intros a b Ha Hb Hca Hcb.
    destruct (spaced_In _ a b Hs Ha Hb) as [|Hab]; [assumption|exfalso].
    exact (apart_no_double_hit (lane s) a b Hab Hca Hcb).
  - intros delta rnd Hp. rewrite useFrame_playing by assumption.
    rewrite frame_shareTimers, frame_gameState, Hp.
    pose proof (hits_zero (inject_Z (lane s) * LANE_WIDTH) (obstacles s)) as Hz.
    destruct (existsb _ _).
    + assert (hits (inject_Z (lane s) * LANE_WIDTH) (obstacles s) <> 0%nat).
      { intro E. apply Hz in E. discriminate. }
      lia.
    + assert (hits (inject_Z (lane s) * LANE_WIDTH) (obstacles s) = 0%nat)
        by (apply Hz; reflexivity).
      lia.
Qed.

Lemma X8_one_collision_per_frame_witness :
  played None sampleState /\
  (hits (inject_Z (lane sampleState) * LANE_WIDTH) (obstacles sampleState)
   <= 1)%nat.
Proof.
  split; [exact sampleState_played|].
  destruct (X8_one_collision_per_frame None sampleState sampleState_played)
    as [_ [H _]].
  exact H.
Defined.

(** X9: under well-timed events the phase only ever changes from [menu] to
    [playing] (a click on PLAY), from [playing] to [gameover] (a frame) and
    from [gameover] to [menu] (a click on Close); while the phase is
    [playing] the share card is hidden and no share timer is pending. *)
Theorem X9_phase_cycle saved s e :
  played saved s ->
  (gameState s = playing -> showShareCard s = false /\ shareTimers s = 0%nat) /\
  (gameState (step e s) = gameState s \/
   (gameState s = menu /\ e = Play /\ gameState (step e s) = playing) \/
   (gameState s = playing /\ (exists delta rnd, e = Frame delta rnd) /\
    gameState (step e s) = gameover) \/
   (gameState s = gameover /\ e = Close /\ gameState (step e s) = menu)).
Proof.
  intro H. pose proof (played_phase saved s H) as Hp. unfold phaseOk in Hp.
  split.
  - intro Hg. rewrite Hg in Hp. destruct (showShareCard s); split;
      try reflexivity; lia.
  - destruct e as [d r|key|x0 x1| | |]; cbn [step].
    + destruct (gameState s) eqn:Hg;
        try (left; rewrite useFrame_idle by congruence; exact Hg).
      destruct (frame_phase_cases d r s Hg) as [Hs|Hs]; [left; exact Hs|].
      right; right; left. split; [reflexivity|]. split; [eauto | exact Hs].
    + left. destruct (handleKeyDown_set key s) as [l ->]. reflexivity.
    + left. destruct (handleTouchEnd_set x0 x1 s) as [l ->]. reflexivity.
    + destruct (gameState s) eqn:Hg; try (left; exact Hg).
      right; left. split; [reflexivity|]. split; [reflexivity|].
      rewrite startGame_menu by assumption.
      unfold resetEffect. project_setters. reflexivity.
    + left. unfold shareTimerFires. destruct (shareTimers s); reflexivity.
    + destruct (showShareCard s) eqn:Hc; [|left; reflexivity].
      rewrite closeShareCard_eq. project_setters.
      destruct (gameState s) eqn:Hg; try lia.
      right; right; right. auto.
Qed.

Lemma X9_phase_cycle_witness :
  played None sampleState /\
  (gameState sampleState = playing ->
   showShareCard sampleState = false /\ shareTimers sampleState = 0%nat).
Proof.
  split; [exact sampleState_played|].
  destruct (X9_phase_cycle None sampleState Close sampleState_played)
    as [H _].
  exact H.
Defined.

(** X10: a run does not depend on what came before it.  Two states in the
    menu, after a click on PLAY and the same frames, keys and touches, agree
    on the phase, the score, the lane, the registry, the speed, the id
    counter and the spawn cursor. *)
Theorem X10_fresh_start a b es :
  gameState a = menu ->
  gameState b = menu ->
  Forall isGameEvent es ->
  sameRun (run es (step Play a)) (run es (step Play b)).
Proof.
  intros Ha Hb Hes. apply run_sameRun; [exact Hes|].
  cbn [step]. rewrite Ha, Hb, !startGame_menu by assumption.
  unfold sameRun, resetEffect. project_setters. repeat split.
Qed.

Lemma X10_fresh_start_witness :
  gameState (initialState None) = menu /\
  gameState afterRun450 = menu /\
  score (run [Frame 0.1 someDraws; KeyDown "d"] (step Play afterRun450))
  = score (run [Frame 0.1 someDraws; KeyDown "d"]
               (step Play (initialState None))) /\
  obstacles (run [Frame 0.1 someDraws; KeyDown "d"] (step Play afterRun450))
  = obstacles (run [Frame 0.1 someDraws; KeyDown "d"]
                   (step Play (initialState None))).
Proof.
  split; [reflexivity|]. split; [reflexivity|].
  destruct (X10_fresh_start afterRun450 (initialState None)
              [Frame 0.1 someDraws; KeyDown "d"] eq_refl eq_refl)
    as [_ [Hs [_ [Ho _]]]].
  - repeat constructor.
  - split; assumption.
Defined.

(** X11: the collision test samples positions once per frame.  When no
    obstacle of the player's lane is inside the window at the start of a
    frame nor after the frame's movement, neither that frame nor the next
    one ends the game, also when an obstacle went from in front of the
    player to behind it in between.  When the frame moves the obstacles by
    less than 3, an obstacle of the player's lane that gets past the front
    edge of the window is inside the window at the next frame, which ends
    the game. *)
Theorem X11_window_sampling delta rnd delta' rnd' st :
  gameState st = playing ->
  ((forall obs, In obs (obstacles st) -> obs_lane obs = lane st ->
      (obs_z obs <= -1.5 \/ 1.5 <= obs_z obs) /\
      (obs_z obs - speed st * delta <= -1.5 \/
       1.5 <= obs_z obs - speed st * delta)) ->
   gameState (useFrame delta rnd st) = playing /\
   gameState (useFrame delta' rnd' (useFrame delta rnd st)) = playing) /\
  (forall obs, In obs (obstacles st) -> obs_lane obs = lane st ->
     1.5 <= obs_z obs ->
     obs_z obs - speed st * delta < 1.5 ->
     speed st * delta < 3 ->
     gameState (useFrame delta rnd st) = playing ->
     gameState (useFrame delta' rnd' (useFrame delta rnd st)) = gameover).
Proof.
  intro Hp. split.
  - intro Hout.
    assert (H1 : gameState (useFrame delta rnd st) = playing).
    { destruct (frame_phase_cases delta rnd st Hp) as [|Hover];
        [assumption|exfalso].
      apply (frame_gameover_window delta rnd st Hp) in Hover.
      destruct Hover as [o [Ho [Hl [Ha Hb]]]].
      destruct (Hout o Ho Hl) as [[H|H] _]; lra. }
    split; [exact H1|].
    destruct (frame_phase_cases delta' rnd' _ H1) as [|Hover];
      [assumption|exfalso].
    apply (frame_gameover_window delta' rnd' _ H1) in Hover.
    destruct Hover as [o' [Ho' [Hl' [Ha Hb]]]].
    rewrite useFrame_lane in Hl'.
    rewrite useFrame_playing, frame_registry in Ho' by assumption.
    apply in_app_or in Ho'. destruct Ho' as [Ho'|Ho'].
    + destruct (updated_In _ _ _ _ Ho') as [o [Ho [_ [Hl [Hz _]]]]].
      rewrite Hl in Hl'. destruct (Hout o Ho Hl') as [_ [H|H]];
        rewrite Hz in Ha, Hb; lra.
    + destruct (0 <? lastSpawnZ st); [contradiction|].
      destruct (wave_In _ _ _ Ho') as [Hz _]. rewrite Hz in Hb. lra.
  - intros obs Hin Hl Hfront Hpast Hstep H1.
    apply (frame_gameover_window delta' rnd' _ H1).
    destruct (frame_keeps delta rnd st obs Hp Hin) as [obs' [Hin' [Hz Hl']]].
    { unfold OBSTACLE_DESPAWN_DISTANCE. lra. }
    exists obs'. rewrite useFrame_lane, Hz, Hl'.
    split; [exact Hin'|]. split; [exact Hl|]. split; lra.
Qed.

Lemma X11_window_sampling_witness :
  let st := playingWith [mkObstacle 0 1.6 0 false] in
  gameState st = playing /\
  obstacles (useFrame 0.25 someDraws st) = [mkObstacle 0 (-2.150) 0 true] /\
  gameState (useFrame 0.25 someDraws st) = playing /\
  gameState (useFrame 0.25 someDraws (useFrame 0.25 someDraws st)) = playing.
Proof.
  cbv zeta. split; [reflexivity|]. split; [vm_compute; reflexivity|].
  destruct (X11_window_sampling 0.25 someDraws 0.25 someDraws
              (playingWith [mkObstacle 0 1.6 0 false]) eq_refl) as [H _].
  apply H. intros obs [<-|[]] _. split; [right|left]; vm_compute; discriminate.
Defined.



(** ** Lifetime of an obstacle *)




(** ** A lane is always open *)

Lemma sameWorld_open a b : sameWorld a b -> openOk a -> openOk b.
Proof. unfold openOk. intros [_ [_ [_ [<- _]]]] H. exact H. Qed.

Lemma step_open e s :
  wellTimed e -> timedOk s -> openOk s -> openOk (step e s).
Proof.
  intros He [Hv [_ [Hz _]]] Hopen.
  destruct (step_cases e s) as [[d [r [-> [_ ->]]]] | [[_ [_ ->]] | Hq]].
  - destruct He as [Hd _].
    assert (Hm : 0 <= speed s * d) by nra.
    rewrite Forall_forall in Hz.
    unfold openOk. rewrite frame_registry. intros o1 Ho1.
    apply in_app_or in Ho1. destruct Ho1 as [Ho1|Ho1].
    + destruct (updated_In _ _ _ _ Ho1) as [p1 [Hp1 [_ [_ [Hz1 _]]]]].
      destruct (Hopen p1 Hp1) as [l [Hl Hfree]].
      exists l. split; [exact Hl|]. intros o2 Ho2 Heq.
      apply in_app_or in Ho2. destruct Ho2 as [Ho2|Ho2].
      * destruct (updated_In _ _ _ _ Ho2) as [p2 [Hp2 [_ [Hl2 [Hz2 _]]]]].
        rewrite Hl2. apply (Hfree p2 Hp2). rewrite Hz1, Hz2 in Heq. lra.
      * destruct (Qltb_reflect 0 (lastSpawnZ s)) as [|Hnon];
          [contradiction|].
        destruct (wave_In _ _ _ Ho2) as [Hw _].
        destruct (Hz p1 Hp1) as [_ Hb].
        rewrite Hw, Hz1 in Heq. exfalso. lra.
    + destruct (Qltb_reflect 0 (lastSpawnZ s)) as [|Hnon]; [contradiction|].
      destruct (wave_In _ _ _ Ho1) as [Hw1 _].
      destruct (blockedLanes_open r) as [l [Hl Hfree]].
      exists l. split.
      { unfold lanes in Hl. unfold isLane. cbn in Hl. intuition lia. }
      intros o2 Ho2 Heq.
      apply in_app_or in Ho2. destruct Ho2 as [Ho2|Ho2].
      * destruct (updated_In _ _ _ _ Ho2) as [p2 [Hp2 [_ [_ [Hz2 _]]]]].
        destruct (Hz p2 Hp2) as [_ Hb].
        rewrite Hw1, Hz2 in Heq. exfalso. lra.
      * destruct (wave_In _ _ _ Ho2) as [_ [_ [Hl2 _]]].
        intro E. apply Hfree. rewrite <- E. exact Hl2.
  - unfold openOk, resetEffect. project_setters. intros obs [].
  - exact (sameWorld_open _ _ Hq Hopen).
Qed.

Lemma played_open saved s : played saved s -> openOk s.
Proof.
  induction 1 as [|e s Hs IH He]; [intros obs []|].
  exact (step_open e s He (played_timed saved s Hs) IH).
Qed.

Lemma safe_lane saved s :
  played saved s ->
  exists l, isLane l /\
    forall obs, In obs (obstacles s) -> obs_lane obs = l ->
      obs_z obs <= -1.5 \/ 1.5 <= obs_z obs.
Proof.
  intro H.
  destruct (played_timed saved s H) as [_ [_ [_ Hs]]].
  pose proof (played_open saved s H) as Hopen.
  destruct (existsb (fun obs => (-1.5 <? obs_z obs) && (obs_z obs <? 1.5))%bool
                    (obstacles s)) eqn:He.
  - apply existsb_exists in He. destruct He as [o [Ho Hw]].
    apply andb_true_iff in Hw. destruct Hw as [Hlo Hhi].
    apply Qltb_lt in Hlo, Hhi.
    destruct (Hopen o Ho) as [l [Hl Hfree]].
    exists l. split; [exact Hl|]. intros o' Ho' Hl'.
    destruct (Qlt_le_dec (-1.5) (obs_z o')) as [Ha|Ha]; [|left; exact Ha].
    destruct (Qlt_le_dec (obs_z o') 1.5) as [Hb|Hb]; [|right; exact Hb].
    exfalso.
    destruct (spaced_In _ o' o Hs Ho' Ho) as [->|[[Heq _]|[Hfar|Hfar]]].
    + apply (Hfree o Ho); [reflexivity | exact Hl'].
    + apply (Hfree o' Ho' Heq). exact Hl'.
    + lra.
    + lra.
  - exists 0%Z. split; [unfold isLane; lia|]. intros o Ho _.
    destruct (Qlt_le_dec (-1.5) (obs_z o)) as [Ha|Ha]; [|left; exact Ha].
    destruct (Qlt_le_dec (obs_z o) 1.5) as [Hb|Hb]; [|right; exact Hb].
    exfalso.
    assert (Hex : existsb (fun obs => (-1.5 <? obs_z obs)
                                      && (obs_z obs <? 1.5))%bool
                          (obstacles s) = true).
    { apply existsb_exists. exists o. split; [exact Ho|].
      apply andb_true_iff. split; apply Qltb_lt; assumption. }
    congruence.
Qed.

Lemma key_left s :
  gameState s = playing ->
  step (KeyDown "ArrowLeft") s = set_lane (moveLeft (lane s)) s.
Proof. intro Hp. cbn [step]. unfold handleKeyDown. rewrite Hp. reflexivity. Qed.

Lemma key_right s :
  gameState s = playing ->
  step (KeyDown "ArrowRight") s = set_lane (moveRight (lane s)) s.
Proof. intro Hp. cbn [step]. unfold handleKeyDown. rewrite Hp. reflexivity. Qed.

Lemma keysTo_run s to :
  gameState s = playing -> isLane (lane s) -> isLane to ->
  gameState (run (keysTo (lane s) to) s) = playing /\
  lane (run (keysTo (lane s) to) s) = to /\
  obstacles (run (keysTo (lane s) to) s) = obstacles s.
Proof.
  intros Hp Hl Ht. unfold isLane in *.
  assert (Hc : lane s = (-1)%Z \/ lane s = 0%Z \/ lane s = 1%Z) by lia.
  assert (Hd : to = (-1)%Z \/ to = 0%Z \/ to = 1%Z) by lia.
  destruct Hc as [Hc | [Hc | Hc]], Hd as [-> | [-> | ->]];
    rewrite Hc;
    match goal with
    | |- context [keysTo ?a ?b] =>
        let k := eval vm_compute in (keysTo a b) in
        change (keysTo a b) with k
    end;
    cbn [run fold_left];
    repeat first
      [ rewrite (key_left s Hp) | rewrite (key_right s Hp)
      | rewrite key_left by (project_setters; exact Hp)
      | rewrite key_right by (project_setters; exact Hp) ];
    project_setters; rewrite ?Hc; repeat split; assumption || reflexivity.
Qed.

Lemma keysTo_short a b :
  isLane a -> isLane b ->
  (length (keysTo a b) <= 2)%nat /\
  Forall (fun e => e = KeyDown "ArrowLeft" \/ e = KeyDown "ArrowRight")
         (keysTo a b).
Proof.
  unfold isLane. intros Ha Hb.
  assert (Hc : a = (-1)%Z \/ a = 0%Z \/ a = 1%Z) by lia.
  assert (Hd : b = (-1)%Z \/ b = 0%Z \/ b = 1%Z) by lia.
  destruct Hc as [-> | [-> | ->]], Hd as [-> | [-> | ->]];
    (split;
     [ vm_compute; lia
     | match goal with
       | |- Forall _ (keysTo ?a ?b) =>
           let k := eval vm_compute in (keysTo a b) in
           change (keysTo a b) with k
       end;
       repeat (apply Forall_cons;
               [first [left; reflexivity | right; reflexivity]|]);
       apply Forall_nil ]).
Qed.

(** X14: a collision can always be avoided.  In every playing state of a
    well-timed run some lane has no obstacle inside the collision window,
    and at most two presses of the arrow keys take the player there: after
    them the next frame, whatever its delta and draws, leaves the phase at
    [playing]. *)
Theorem X14_collision_avoidable saved s :
  played saved s ->
  gameState s = playing ->
  exists keys,
    (length keys <= 2)%nat /\
    Forall (fun e => e = KeyDown "ArrowLeft" \/ e = KeyDown "ArrowRight") keys /\
    forall delta rnd, gameState (useFrame delta rnd (run keys s)) = playing.
Proof.
  intros H Hp.
  destruct (safe_lane saved s H) as [l [Hl Hsafe]].
  pose proof (reachable_lane saved s (played_reachable saved s H)) as Hlane.
  destruct (keysTo_short (lane s) l Hlane Hl) as [Hlen Hkeys].
  destruct (keysTo_run s l Hp Hlane Hl) as [Hg [Hto Hobs]].
  exists (keysTo (lane s) l).
  split; [exact Hlen|]. split; [exact Hkeys|].
  intros delta rnd.
  destruct (frame_phase_cases delta rnd _ Hg) as [|Hover];
    [assumption|exfalso].
  apply (frame_gameover_window delta rnd _ Hg) in Hover.
  destruct Hover as [o [Ho [Hlo [Ha Hb]]]].
  rewrite Hobs in Ho. rewrite Hto in Hlo.
  destruct (Hsafe o Ho Hlo); lra.
Qed.

(** A well-timed run that ends with an obstacle on the player. *)
Lemma sampleThreat_played :
  played None
    (run [Play; Frame (16 # 3) someDraws; Frame 0.1 someDraws;
          KeyDown "ArrowLeft"; Frame 5.2 someDraws]
         (initialState None)).
Proof.
  apply played_run; [|constructor].
  repeat (constructor;
          [first [exact I
                 | repeat split; vm_compute; first [reflexivity | discriminate]]
          |]).
  constructor.
Qed.

Lemma X14_collision_avoidable_witness :
  let s := run [Play; Frame (16 # 3) someDraws; Frame 0.1 someDraws;
                KeyDown "ArrowLeft"; Frame 5.2 someDraws]
               (initialState None) in
  played None s /\ gameState s = playing /\
  gameState (useFrame 0.1 someDraws s) = gameover /\
  exists keys,
    (length keys <= 2)%nat /\
    forall delta rnd, gameState (useFrame delta rnd (run keys s)) = playing.
Proof.
  cbv zeta. split; [exact sampleThreat_played|].
  split; [vm_compute; reflexivity|]. split; [vm_compute; reflexivity|].
  destruct (X14_collision_avoidable None _ sampleThreat_played)
    as [keys [Hlen [_ Hsafe]]].
  - vm_compute. reflexivity.
  - exists keys. split; assumption.
Defined.
